(** * payload_dumper: a shallow embedding of [dumper.py]

    The model comes first, each function of the source after those it
    calls: the byte and file-handle model, the two integer decoders,
    [verify_contiguous], the methods of the [Dumper] class
    ([parse_metadata], [data_for_op], [dump_part],
    [multiprocess_partitions], [run]) and [main]. Then come the vocabulary
    of the properties, the concrete inputs on which the model is run, and
    the properties themselves.

    Python integers are unbounded; the protobuf fields are unsigned, so they
    are kept in [N].  File offsets and lengths are converted to [nat] where
    they index a byte list. *)

From Stdlib Require Import NArith ZArith Lia List.
From stdpp Require Import base option list gmap strings.

#[global] Instance byte_eq_dec : EqDecision Byte.byte := Byte.byte_eq_dec.

Abbreviation byte := Byte.byte.
Abbreviation bytes := (list Byte.byte).
Abbreviation x00 := Byte.x00.

(** ** Exceptions and results

    A Python call either returns, raises an [Exception], or raises
    [SystemExit] (what [sys.exit] does). [SystemExit] derives from
    [BaseException], so an [except Exception] clause does not catch it:
    the two are kept apart. *)

Inductive exn :=
  | AssertionError
  | DecodeError         (* google.protobuf.message.DecodeError *)
  | StructError         (* struct.error *)
  | IndexError
  | AttributeError      (* a method called on None *)
  | FileNotFoundError
  | LZMAError
  | BZ2Error            (* OSError / ValueError of the bz2 decoder *)
  | PatchError          (* ValueError of bsdiff4.patch *)
  | ValueError
  | BadZipFile
  | OverflowError
  | MemoryError.

Inductive result (A : Type) :=
  | Ok (a : A)
  | Raise (e : exn)
  | SystemExit (code : Z).
Arguments Ok {A} a.
Arguments Raise {A} e.
Arguments SystemExit {A} code.

Definition rbind {A B} (r : result A) (k : A → result B) : result B :=
  match r with
  | Ok a => k a
  | Raise e => Raise e
  | SystemExit c => SystemExit c
  end.

Notation "x ←r c ; k" := (rbind c (λ x, k))
  (at level 20, c at level 100, k at level 200, right associativity,
   format "x  ←r  c ;  '/' k").

(** [or_raise e o]: the value of a library call that raises [e] where the
    model of the library returns [None]. *)
Definition or_raise {A} (e : exn) (o : option A) : result A :=
  match o with Some a => Ok a | None => Raise e end.

(** [for_each l body s]: a [for x in l:] loop whose body may raise, with the
    loop-carried variables in [s]. *)
Fixpoint for_each {A S} (l : list A) (body : S → A → result S) (s : S)
  : result S :=
  match l with
  | [] => Ok s
  | x :: l' => s' ←r body s x; for_each l' body s'
  end.

(** ** File handles

    A binary file handle (an [open(..., "wb")] / [open(..., "rb")] object or
    an [io.BytesIO]) is its content and its position. [write] overwrites at
    the position and extends the file; a position beyond the end is padded
    with zero bytes when something is written there, and writing the empty
    byte string changes nothing. [read] returns at most [n] bytes and fewer
    at the end of the file. Sizes and offsets are taken to fit the index
    type of the platform, and memory to suffice, but for the two reads of
    [parse_metadata] whose sizes come from the header of the payload
    ([read_sized] below). *)

Record file := File { contents : bytes; position : nat }.

Definition seek (f : file) (off : nat) : file := File (contents f) off.

Definition tell (f : file) : nat := position f.

Definition write (f : file) (data : bytes) : file :=
  match data with
  | [] => f
  | _ =>
      let c := contents f in
      let p := position f in
      File (take p c ++ replicate (p - length c) x00 ++ data
              ++ drop (p + length data) c)
           (p + length data)
  end.

Definition read (f : file) (n : nat) : bytes * file :=
  let data := take n (drop (position f) (contents f)) in
  (data, File (contents f) (position f + length data)).

(** [f.read()] without a size. *)
Definition read_all (f : file) : bytes * file :=
  let data := drop (position f) (contents f) in
  (data, File (contents f) (position f + length data)).

(** [old_file.seek(off)] followed by [old_file.read(n)]. Every read of the
    old image in the source is preceded by its own seek, so the handle's
    position never carries from one read to the next. *)
Definition read_at (image : bytes) (off n : nat) : bytes :=
  (read (seek (File image 0) off) n).1.

(** ** Integers of the header *)

Definition be_value (x : bytes) : N :=
  foldl (λ acc b, acc * 256 + Byte.to_N b)%N 0%N x.

(** [struct.unpack(">I", x)[0]] and [struct.unpack(">Q", x)[0]]: big-endian,
    and [struct.error] unless [x] has exactly the size of the format. *)
Definition u32 (x : bytes) : result N :=
  if decide (length x = 4) then Ok (be_value x) else Raise StructError.

Definition u64 (x : bytes) : result N :=
  if decide (length x = 8) then Ok (be_value x) else Raise StructError.

(** ** The manifest (update_metadata_pb2) *)

(** Modelled from the spec: the message types of the generated protobuf
    module [update_metadata_pb2], which the source imports as [um] and which
    is not part of it. Only the fields the source reads are kept, with the
    data model's types: [block_size], the ordered partitions, their ordered
    operations, and for an operation its type, the offset and length of its
    payload in the data region, its source and destination extents and the
    hash of its payload. The operation type is one of the six kinds the
    source dispatches on, or any other enum value ([OtherType]). *)
Module um.

Record Extent := { start_block : N; num_blocks : N }.

Inductive Type_ :=
  | REPLACE | REPLACE_BZ | REPLACE_XZ | SOURCE_COPY | SOURCE_BSDIFF | ZERO
  | OtherType (n : Z).

Record InstallOperation := {
  type : Type_;
  data_offset : N;
  data_length : N;
  src_extents : list Extent;
  dst_extents : list Extent;
  data_sha256_hash : bytes;
}.

Record PartitionUpdate := {
  partition_name : string;
  operations : list InstallOperation;
}.

Record DeltaArchiveManifest := {
  block_size : N;
  partitions : list PartitionUpdate;
}.

End um.

(** ** verify_contiguous *)

Fixpoint verify_contiguous_loop (blocks : N) (exts : list um.Extent) : bool :=
  match exts with
  | [] => true
  | ext :: exts' =>
      if negb (um.start_block ext =? blocks)%N then false
      else verify_contiguous_loop (blocks + um.num_blocks ext) exts'
  end.

Definition verify_contiguous (exts : list um.Extent) : bool :=
  verify_contiguous_loop 0 exts.

(** The number of blocks of a sequence of extents. *)
Definition total_blocks (exts : list um.Extent) : N :=
  foldr (λ ext acc, um.num_blocks ext + acc)%N 0%N exts.

(** The contiguity of the specification's data model, as it is worded
    there: every extent starts at the running sum of the block counts before
    it, the sum starting from the first extent's own [start_block]. *)
Definition contiguous_spec (exts : list um.Extent) : Prop :=
  ∀ first, head exts = Some first →
    ∀ i ext, exts !! i = Some ext →
      um.start_block ext = (um.start_block first + total_blocks (take i exts))%N.

(** What the loop of [verify_contiguous] checks: the running sum starts
    from [0]. *)
Definition contiguous_from_zero (exts : list um.Extent) : Prop :=
  ∀ i ext, exts !! i = Some ext →
    um.start_block ext = total_blocks (take i exts).

(** ** The libraries the source calls

    [lzma], [bz2], [bsdiff4], the protobuf runtime, [zipfile] and the
    completion order of [concurrent.futures.as_completed] are outside the
    source: they are parameters of the model. A decoder that raises is
    [None]. [as_completed] yields every future once, in an order that the
    model leaves open. Which sizes the payload file refuses in a
    [read(size)] is a parameter too: it depends on the file object and on
    the platform (the buffered file of a 64-bit CPython raises
    [OverflowError] from 2^63 on, and [MemoryError] below that when it
    cannot allocate the buffer, before it looks at what the file
    holds). *)

(** How [read(size)] refuses a size. *)
Inductive read_error := SizeOverflow | OutOfMemory.

Definition read_exn (e : read_error) : exn :=
  match e with
  | SizeOverflow => OverflowError
  | OutOfMemory => MemoryError
  end.

(** A future of [executor.submit(self.dump_part, part, ...)], once it is
    done: the partition's name and how [dump_part] ended. *)
Definition future : Type := string * result ().

Record libraries := {
  lzma_decompress : bytes → option bytes;
  bz2_decompress : bytes → option bytes;
  (** [bsdiff4.patch(src_bytes, patch_bytes)] *)
  bsdiff4_patch : bytes → bytes → option bytes;
  ParseFromString : bytes → option um.DeltaArchiveManifest;
  (** [zipfile.ZipFile(f).open("payload.bin")]: the member's bytes *)
  zip_open_payload : bytes → result bytes;
  as_completed : list future → list future;
  as_completed_perm : ∀ futures, as_completed futures ≡ₚ futures;
  (** [payloadfile.read(size)], for a size taken from the header: how the
      size is refused, if it is *)
  read_refuses : N → option read_error;
}.

(** ** The Dumper object

    [images] is [None] for [self.images == ""] and otherwise the names
    [image.strip()] of [self.images.split(",")], in that order. The
    payload file handle, which [run] moves and closes, lives in the
    [world] below. *)

Record Dumper := {
  out : string;
  diff : bool;
  old : string;
  images : option (list string);
  workers : Z;
  metadata_signature : bytes;
  data_offset : nat;
  dam : um.DeltaArchiveManifest;
  block_size : N;
}.

(** Python's [buffer[a:b]] for [0 <= a <= b]. *)
Definition slice (a b : nat) (x : bytes) : bytes := take (b - a) (drop a x).

(** b"CrAU" *)
Definition CrAU : bytes := [Byte.x43; Byte.x72; Byte.x41; Byte.x55].

Record metadata := {
  md_signature : bytes;
  md_data_offset : nat;
  md_dam : um.DeltaArchiveManifest;
  md_block_size : N;
}.

(** [self.payloadfile.read(size)] for a size taken from the header: the
    size is refused, or the bytes that the file holds from its cursor on
    are read, [size] of them at most. *)
Definition read_sized (L : libraries) (payloadfile : file) (size : N)
  : result (bytes * file) :=
  match read_refuses L size with
  | Some e => Raise (read_exn e)
  | None => Ok (read payloadfile (N.to_nat size))
  end.

(** [Dumper.parse_metadata]: the fields it assigns, and the payload file
    handle after its reads. The read of the 24 bytes of the header is
    taken to be accepted. *)
Definition parse_metadata (L : libraries) (payloadfile : file)
  : result (metadata * file) :=
  let head_len := 4 + 8 + 8 + 4 in
  let '(buffer, payloadfile) := read payloadfile head_len in
  if negb (bool_decide (length buffer = head_len)) then Raise AssertionError
  else
  let magic := slice 0 4 buffer in
  if negb (bool_decide (magic = CrAU)) then Raise AssertionError else
  file_format_version ←r u64 (slice 4 12 buffer);
  if negb (file_format_version =? 2)%N then Raise AssertionError else
  manifest_size ←r u64 (slice 12 20 buffer);
  metadata_signature_size ←r
    (if (1 <? file_format_version)%N then u32 (slice 20 24 buffer)
     else Ok 0%N);
  manifest_read ←r read_sized L payloadfile manifest_size;
  let '(manifest, payloadfile) := manifest_read in
  signature_read ←r read_sized L payloadfile metadata_signature_size;
  let '(signature, payloadfile) := signature_read in
  let offset := tell payloadfile in
  dam ←r or_raise DecodeError (ParseFromString L manifest);
  Ok ({| md_signature := signature; md_data_offset := offset;
         md_dam := dam; md_block_size := um.block_size dam |},
      payloadfile).

(** ** data_for_op *)

(** The dict [{"operation": ..., "data": ...}] built by [run]. *)
Record fetched_op := {
  operation : um.InstallOperation;
  data : bytes;
}.

(** The dict [{"partition": ..., "operations": ...}] built by [run]. *)
Record fetched_part := {
  partition : um.PartitionUpdate;
  operations : list fetched_op;
}.

(** [blocks * self.block_size], as a byte offset or byte count. *)
Definition in_bytes (d : Dumper) (blocks : N) : nat :=
  N.to_nat (blocks * block_size d).

(** [op.dst_extents[0]] *)
Definition first_extent (exts : list um.Extent) : result um.Extent :=
  or_raise IndexError (head exts).

(** [old_file.seek(...)] on the handle of [dump_part], which is [None]
    outside differential mode. *)
Definition old_image (old_file : option bytes) : result bytes :=
  or_raise AttributeError old_file.

(** The loop over [op.src_extents] of SOURCE_COPY and SOURCE_BSDIFF: each
    extent's bytes of the old image are written to [sink] at its position
    (the output file for SOURCE_COPY, the scratch buffer for
    SOURCE_BSDIFF). *)
Definition copy_src_extents (d : Dumper) (old_file : option bytes)
    (exts : list um.Extent) (sink : file) : result file :=
  for_each exts
    (λ sink ext,
      image ←r old_image old_file;
      Ok (write sink
            (read_at image (in_bytes d (um.start_block ext))
                     (in_bytes d (um.num_blocks ext)))))
    sink.

(** The loop over [op.dst_extents] of SOURCE_BSDIFF; its variables are the
    block counter [n], the scratch buffer and the output file. *)
Definition scatter_step (d : Dumper) (s : N * file * file) (ext : um.Extent)
  : N * file * file :=
  let '(n, tmp_buff, out_file) := s in
  let tmp_buff := seek tmp_buff (in_bytes d n) in
  let n := (n + um.num_blocks ext)%N in
  let '(data, tmp_buff) := read tmp_buff (in_bytes d (um.num_blocks ext)) in
  let out_file := seek out_file (in_bytes d (um.start_block ext)) in
  let out_file := write out_file data in
  (n, tmp_buff, out_file).

Definition scatter (d : Dumper) (exts : list um.Extent) (tmp_buff : file)
    (out_file : file) : file :=
  (foldl (scatter_step d) (0%N, seek tmp_buff 0, out_file) exts).2.

(** The loop over [op.dst_extents] of ZERO. *)
Definition zero_step (d : Dumper) (out_file : file) (ext : um.Extent) : file :=
  let out_file := seek out_file (in_bytes d (um.start_block ext)) in
  write out_file (replicate (in_bytes d (um.num_blocks ext)) x00).

(** [Dumper.data_for_op]: the output file handle after the operation. (The
    value the method returns is dropped by its only caller.) *)
Definition data_for_op (L : libraries) (d : Dumper) (fetched : fetched_op)
    (out_file : file) (old_file : option bytes) : result file :=
  let data := data fetched in
  let op := operation fetched in
  match um.type op with
  | um.REPLACE_XZ =>
      data ←r or_raise LZMAError (lzma_decompress L data);
      ext ←r first_extent (um.dst_extents op);
      let out_file := seek out_file (in_bytes d (um.start_block ext)) in
      Ok (write out_file data)
  | um.REPLACE_BZ =>
      data ←r or_raise BZ2Error (bz2_decompress L data);
      ext ←r first_extent (um.dst_extents op);
      let out_file := seek out_file (in_bytes d (um.start_block ext)) in
      Ok (write out_file data)
  | um.REPLACE =>
      ext ←r first_extent (um.dst_extents op);
      let out_file := seek out_file (in_bytes d (um.start_block ext)) in
      Ok (write out_file data)
  | um.SOURCE_COPY =>
      if negb (diff d) then SystemExit (-2) else
      ext ←r first_extent (um.dst_extents op);
      let out_file := seek out_file (in_bytes d (um.start_block ext)) in
      copy_src_extents d old_file (um.src_extents op) out_file
  | um.SOURCE_BSDIFF =>
      if negb (diff d) then SystemExit (-3) else
      ext ←r first_extent (um.dst_extents op);
      let out_file := seek out_file (in_bytes d (um.start_block ext)) in
      let tmp_buff := File [] 0 in
      tmp_buff ←r copy_src_extents d old_file (um.src_extents op) tmp_buff;
      let tmp_buff := seek tmp_buff 0 in
      let '(old_data, tmp_buff) := read_all tmp_buff in
      let tmp_buff := seek tmp_buff 0 in
      patched ←r or_raise PatchError (bsdiff4_patch L old_data data);
      let tmp_buff := write tmp_buff patched in
      Ok (scatter d (um.dst_extents op) tmp_buff out_file)
  | um.ZERO =>
      Ok (foldl (zero_step d) out_file (um.dst_extents op))
  | um.OtherType _ =>
      SystemExit (-1)
  end.

(** ** dump_part

    The file system is a map from paths to contents. [open(path, "wb")]
    creates the file or truncates it; [open(path, "rb")] raises
    [FileNotFoundError] for a missing file. The output handle is never
    closed by the source; its content reaches the file system when the
    handle is collected, at the latest when the interpreter exits, which is
    also so when the method ends by an exception: the model stores the
    content written so far in both cases. The old image is read as it is
    when the task opens it (the output directory and the directory of the
    old images are taken to differ). *)

Definition image_path (dir name : string) : string :=
  dir +:+ "/" +:+ name +:+ ".img".

(** The loop [for op in part["operations"]]: the output handle where the
    loop ended, and how it ended. An operation that raises has written
    nothing yet (every error of [data_for_op] comes before its first
    write). *)
Fixpoint apply_operations (L : libraries) (d : Dumper) (ops : list fetched_op)
    (out_file : file) (old_file : option bytes) : file * result () :=
  match ops with
  | [] => (out_file, Ok ())
  | op :: ops' =>
      match data_for_op L d op out_file old_file with
      | Ok out_file => apply_operations L d ops' out_file old_file
      | Raise e => (out_file, Raise e)
      | SystemExit c => (out_file, SystemExit c)
      end
  end.

Definition dump_part (L : libraries) (d : Dumper) (part : fetched_part)
    (fs : gmap string bytes) : gmap string bytes * result () :=
  let name := um.partition_name (partition part) in
  let out_path := image_path (out d) name in
  let fs := <[out_path := []]> fs in
  let out_file := File [] 0 in
  let opened :=
    if diff d
    then or_raise FileNotFoundError (Some <$> fs !! image_path (old d) name)
    else Ok None in
  match opened with
  | Ok old_file =>
      let '(out_file, r) :=
        apply_operations L d (operations part) out_file old_file in
      (<[out_path := contents out_file]> fs, r)
  | Raise e => (fs, Raise e)
  | SystemExit c => (fs, SystemExit c)
  end.

(** ** The world of a run

    The payload file handle, the file system, and the trace of what the run
    did to the payload file, which tasks it submitted and what it printed,
    oldest event first. *)

Inductive message :=
  | PartitionNotFound (image : string)
  | NotOperating
  | ProcessingException (name : string) (exc : exn).

Inductive event :=
  | PayloadSeek (off : nat)
  | PayloadRead (n : nat)
  | PayloadClose
  | Submit (name : string)
  | Print (m : message).

Record world := World {
  payloadfile : file;
  files : gmap string bytes;
  trace : list event;
}.

Definition emit (e : event) (w : world) : world :=
  World (payloadfile w) (files w) (trace w ++ [e]).

Definition payload_seek (off : nat) (w : world) : world :=
  emit (PayloadSeek off) (World (seek (payloadfile w) off) (files w) (trace w)).

Definition payload_read (n : nat) (w : world) : bytes * world :=
  let '(data, f) := read (payloadfile w) n in
  (data, emit (PayloadRead n) (World f (files w) (trace w))).

(** ** multiprocess_partitions

    Every submitted task runs to its end, also when the loop over the
    completed futures is left by a [SystemExit]: leaving the [with] block
    waits for the pool. The pool itself is refused, by a [ValueError], when
    [self.workers] is not positive. A task writes the output file of its
    own partition only, so the model runs the tasks one after the other, in
    submission order; how they overlap in time is not modelled. The
    progress bars are left out. *)

Definition run_task (L : libraries) (d : Dumper)
    (s : gmap string bytes * list future) (part : fetched_part)
  : gmap string bytes * list future :=
  let '(fs, futures) := s in
  let '(fs, r) := dump_part L d part fs in
  (fs, futures ++ [(um.partition_name (partition part), r)]).

(** The loop [for future in as_completed(futures)]: an [Exception] of a
    task is printed, a [SystemExit] leaves the loop and the method. *)
Fixpoint collect (done : list future) (w : world) : world * result () :=
  match done with
  | [] => (w, Ok ())
  | (name, r) :: done' =>
      match r with
      | Ok _ => collect done' w
      | Raise exc => collect done' (emit (Print (ProcessingException name exc)) w)
      | SystemExit c => (w, SystemExit c)
      end
  end.

(** The futures of all tasks, in submission order, and the file system they
    leave. *)
Definition run_tasks (L : libraries) (d : Dumper) (parts : list fetched_part)
    (fs : gmap string bytes) : gmap string bytes * list future :=
  foldl (run_task L d) (fs, []) parts.

Definition submit_all (parts : list fetched_part) (w : world) : world :=
  foldl (λ w part, emit (Submit (um.partition_name (partition part))) w)
        w parts.

Definition multiprocess_partitions (L : libraries) (d : Dumper)
    (parts : list fetched_part) (w : world) : world * result () :=
  (* ThreadPoolExecutor(max_workers=self.workers) *)
  if (workers d <=? 0)%Z then (w, Raise ValueError) else
  let w := submit_all parts w in
  let '(fs, futures) := run_tasks L d parts (files w) in
  collect (as_completed L futures) (World (payloadfile w) fs (trace w)).

(** ** run *)

Definition select_image (d : Dumper)
    (s : list um.PartitionUpdate * world) (image : string)
  : list um.PartitionUpdate * world :=
  let '(selected, w) := s in
  match find (λ dam_part, bool_decide (um.partition_name dam_part = image))
             (um.partitions (dam d)) with
  | Some dam_part => (selected ++ [dam_part], w)
  | None => (selected, emit (Print (PartitionNotFound image)) w)
  end.

Definition select_partitions (d : Dumper) (w : world)
  : list um.PartitionUpdate * world :=
  match images d with
  | None => (um.partitions (dam d), w)
  | Some names => foldl (select_image d) ([], w) names
  end.

(** The body of the loop over [partition.operations]. The seek and the
    read are taken to be accepted by the payload file, as they are when
    the file holds the bytes of the operation; a read beyond the end of
    the file returns what the file holds. *)
Definition fetch_op (d : Dumper) (s : list fetched_op * world)
    (operation : um.InstallOperation) : list fetched_op * world :=
  let '(fetched, w) := s in
  let w := payload_seek (data_offset d + N.to_nat (um.data_offset operation)) w in
  let '(data, w) := payload_read (N.to_nat (um.data_length operation)) w in
  (fetched ++ [{| operation := operation; data := data |}], w).

Definition fetch_part (d : Dumper) (s : list fetched_part * world)
    (partition : um.PartitionUpdate) : list fetched_part * world :=
  let '(partitions_with_ops, w) := s in
  let '(fetched, w) := foldl (fetch_op d) ([], w) (um.operations partition) in
  (partitions_with_ops ++ [{| partition := partition; operations := fetched |}],
   w).

(** The loop that reads the payload bytes of every operation of every
    selected partition. *)
Definition prefetch (d : Dumper) (selected : list um.PartitionUpdate)
    (w : world) : list fetched_part * world :=
  foldl (fetch_part d) ([], w) selected.

Definition run (L : libraries) (d : Dumper) (w : world) : world * result () :=
  let '(selected, w) := select_partitions d w in
  match selected with
  | [] => (emit (Print NotOperating) w, Ok ())
  | _ =>
      let '(partitions_with_ops, w) := prefetch d selected w in
      let w := emit PayloadClose w in
      multiprocess_partitions L d partitions_with_ops w
  end.

(** ** main

    From the construction of the [Dumper] on: the arguments are parsed and
    the payload file is open. [Dumper.__init__] calls [parse_metadata] and,
    when that fails an assertion, once more on the [payload.bin] member of
    the payload read as a zip archive. *)

Record arguments := {
  arg_out : string;
  arg_diff : bool;
  arg_old : string;
  arg_partitions : option (list string);
  arg_workers : Z;
}.

Definition init (L : libraries) (payload_file : file)
  : result (metadata * file) :=
  match parse_metadata L payload_file with
  | Raise AssertionError =>
      member ←r zip_open_payload L (contents payload_file);
      parse_metadata L (File member 0)
  | r => r
  end.

Definition main (L : libraries) (args : arguments) (payload_file : file)
    (fs : gmap string bytes) : world * result () :=
  match init L payload_file with
  | Ok (md, payload_file) =>
      let dumper :=
        {| out := arg_out args; diff := arg_diff args; old := arg_old args;
           images := arg_partitions args; workers := arg_workers args;
           metadata_signature := md_signature md;
           data_offset := md_data_offset md;
           dam := md_dam md; block_size := md_block_size md |} in
      run L dumper (World payload_file fs [])
  | Raise e => (World payload_file fs [], Raise e)
  | SystemExit c => (World payload_file fs [], SystemExit c)
  end.

(** The exit status of the process: [0] when [main] returns, [1] for an
    uncaught exception, and the low byte of the code of a [SystemExit]. *)
Definition exit_status (r : result ()) : Z :=
  match r with
  | Ok _ => 0
  | Raise _ => 1
  | SystemExit c => c mod 256
  end.

(** * The vocabulary of the properties *)

(** ** Extents and byte ranges *)

(** Offset [i] lies in the byte range of [ext],
    [start_block * block_size, (start_block + num_blocks) * block_size). *)
Definition in_extent (d : Dumper) (ext : um.Extent) (i : nat) : Prop :=
  in_bytes d (um.start_block ext) ≤ i
  < in_bytes d (um.start_block ext + um.num_blocks ext).

(** Offset [i] lies in the union of the byte ranges of [exts]. *)
Definition in_extents (d : Dumper) (exts : list um.Extent) (i : nat) : Prop :=
  ∃ ext, ext ∈ exts ∧ in_extent d ext i.

(** What the three replace operations write: the raw payload, or its
    decompression. *)
Definition replace_payload (L : libraries) (ty : um.Type_) (data : bytes)
  : option bytes :=
  match ty with
  | um.REPLACE => Some data
  | um.REPLACE_XZ => lzma_decompress L data
  | um.REPLACE_BZ => bz2_decompress L data
  | _ => None
  end.

(** The concatenation, in the order of [exts], of the bytes of [image] in
    each extent's byte range. *)
Definition gather (d : Dumper) (image : bytes) (exts : list um.Extent)
  : bytes :=
  concat (map (λ ext, read_at image (in_bytes d (um.start_block ext))
                              (in_bytes d (um.num_blocks ext))) exts).

(** Scattering [buffer] over [exts]: each extent, in order, receives its
    [num_blocks * block_size] bytes of [buffer] from the running block
    offset [n], written at the extent's own byte offset. *)
Fixpoint scatter_from (d : Dumper) (buffer : bytes) (n : N)
    (exts : list um.Extent) (out_file : file) : file :=
  match exts with
  | [] => out_file
  | ext :: exts' =>
      scatter_from d buffer (n + um.num_blocks ext) exts'
        (write (seek out_file (in_bytes d (um.start_block ext)))
               (read_at buffer (in_bytes d n) (in_bytes d (um.num_blocks ext))))
  end.

(** ** The header *)

(** The three checks on the 24-byte header. *)
Definition header_ok (input : bytes) : Prop :=
  24 ≤ length input
  ∧ slice 0 4 input = CrAU
  ∧ be_value (slice 4 12 input) = 2%N.

#[local] Instance header_ok_dec input : Decision (header_ok input).
Proof. unfold header_ok. apply _. Defined.

Definition manifest_size_of (input : bytes) : nat :=
  N.to_nat (be_value (slice 12 20 input)).

Definition signature_size_of (input : bytes) : nat :=
  N.to_nat (be_value (slice 20 24 input)).

(** The bytes handed to the manifest decoder: what the input holds of the
    [manifest_size] bytes after the header. *)
Definition manifest_bytes (input : bytes) : bytes :=
  slice 24 (24 + manifest_size_of input) input.

(** What the input holds of the signature bytes after the manifest. *)
Definition signature_bytes (input : bytes) : bytes :=
  slice (24 + manifest_size_of input)
        (24 + manifest_size_of input + signature_size_of input) input.

(** How the read of the manifest or that of the signature is refused, if
    one of them is: the read of the manifest comes first. *)
Definition read_refused (L : libraries) (input : bytes)
  : option read_error :=
  match read_refuses L (be_value (slice 12 20 input)) with
  | Some e => Some e
  | None => read_refuses L (be_value (slice 20 24 input))
  end.

(** ** Exits *)

(** The codes that the source passes to [sys.exit]. *)
Definition exit_code (c : Z) : Prop := (c = -1 ∨ c = -2 ∨ c = -3)%Z.


(** ** Runs *)

Definition part_name (part : fetched_part) : string :=
  um.partition_name (partition part).

(** The partitions a run works on, in the order it works on them: those of
    the manifest, or the manifest's partition of each requested name, in
    the order of the names. *)
Definition selected_partitions (d : Dumper) : list um.PartitionUpdate :=
  match images d with
  | None => um.partitions (dam d)
  | Some names =>
      concat (map (λ image,
                    option_list
                      (find (λ dam_part,
                              bool_decide (um.partition_name dam_part = image))
                            (um.partitions (dam d))))
                  names)
  end.

(** The seek and the read of the payload file for each operation. *)
Definition fetch_events (d : Dumper) (ops : list um.InstallOperation)
  : list event :=
  concat (map (λ o, [PayloadSeek (data_offset d + N.to_nat (um.data_offset o));
                     PayloadRead (N.to_nat (um.data_length o))]) ops).

(** What the prefetch loop hands on for an operation and for a partition:
    the payload's bytes at the operation's offset in the data region. *)
Definition fetch_data (d : Dumper) (payload : bytes)
    (o : um.InstallOperation) : fetched_op :=
  {| operation := o;
     data := read_at payload (data_offset d + N.to_nat (um.data_offset o))
                     (N.to_nat (um.data_length o)) |}.

Definition fetch_partition (d : Dumper) (payload : bytes)
    (p : um.PartitionUpdate) : fetched_part :=
  {| partition := p;
     operations := map (fetch_data d payload) (um.operations p) |}.

(** The partitions that a run hands to its tasks. *)
Definition fetched_partitions (d : Dumper) (w : world) : list fetched_part :=
  map (fetch_partition d (contents (payloadfile w))) (selected_partitions d).

Definition is_print (e : event) : Prop :=
  match e with Print _ => True | _ => False end.

Definition is_payload_event (e : event) : bool :=
  match e with
  | PayloadSeek _ | PayloadRead _ | PayloadClose => true
  | _ => false
  end.

(** What the loop over the completed futures prints for a future. *)
Definition report (f : future) : list event :=
  match f with
  | (name, Raise exc) => [Print (ProcessingException name exc)]
  | _ => []
  end.

(** * Concrete inputs *)

(** A stand-in for the libraries, to run the model on a concrete payload
    whose manifest bytes decode to [dam]: no compressed stream decodes, the
    patcher returns the patch bytes as the new data, the payload is not a
    zip archive, the futures complete in the order of their submission,
    and a read is refused from 2^63 bytes on. *)
Definition stand_in (dam : um.DeltaArchiveManifest) : libraries :=
  {| lzma_decompress := λ _, None;
     bz2_decompress := λ _, None;
     bsdiff4_patch := λ _ patch, Some patch;
     ParseFromString := λ _, Some dam;
     zip_open_payload := λ _, Raise BadZipFile;
     as_completed := λ futures, futures;
     as_completed_perm := λ futures, reflexivity futures;
     read_refuses := λ size,
       if (size <? 2 ^ 63)%N then None else Some SizeOverflow |}.

(** The message of default values, to which the empty manifest decodes. *)
Definition default_manifest : um.DeltaArchiveManifest :=
  {| um.block_size := 4096; um.partitions := [] |}.

(** A payload up to its data region: the header, which announces one byte
    of manifest and no signature, and the byte of the manifest. The data
    region starts at offset 25. *)
Definition payload_head : bytes :=
  CrAU
  ++ [x00; x00; x00; x00; x00; x00; x00; Byte.x02]
  ++ [x00; x00; x00; x00; x00; x00; x00; Byte.x01]
  ++ [x00; x00; x00; x00]
  ++ [Byte.x0a].

(** The arguments of the command line, but for the payload file. *)
Definition small_args (diff : bool) (images : option (list string))
  : arguments :=
  {| arg_out := "out"; arg_diff := diff; arg_old := "old";
     arg_partitions := images; arg_workers := 4 |}.

(** The dumper that [main] builds from them for a payload that starts with
    [payload_head] and whose manifest decodes to [dam]. *)
Definition small_dumper (diff : bool) (images : option (list string))
    (dam : um.DeltaArchiveManifest) : Dumper :=
  {| out := "out"; diff := diff; old := "old"; images := images;
     workers := 4; metadata_signature := []; data_offset := 25;
     dam := dam; block_size := um.block_size dam |}.

(** The world in which its run starts: the payload file, with the data
    region [data], is at the start of the data region, and the file system
    is empty. *)
Definition fresh_world (data : bytes) : world :=
  World (File (payload_head ++ data) 25) ∅ [].

(** The run of the dumper on that payload, in that world. *)
Definition small_run (diff : bool) (images : option (list string))
    (dam : um.DeltaArchiveManifest) (data : bytes) : world * result () :=
  run (stand_in dam) (small_dumper diff images dam) (fresh_world data).

Definition extent (start_block num_blocks : N) : um.Extent :=
  {| um.start_block := start_block; um.num_blocks := num_blocks |}.

(** A manifest with 2-byte blocks and without partitions. *)
Definition no_partitions : um.DeltaArchiveManifest :=
  {| um.block_size := 2; um.partitions := [] |}.

(** An operation with its payload bytes. *)
Definition op (ty : um.Type_) (src dst : list um.Extent) (data : bytes)
  : fetched_op :=
  {| operation :=
       {| um.type := ty; um.data_offset := 0;
          um.data_length := N.of_nat (length data);
          um.src_extents := src; um.dst_extents := dst;
          um.data_sha256_hash := [] |};
     data := data |}.

(** An old image of three 2-byte blocks. *)
Definition old_image6 : bytes :=
  [Byte.x01; Byte.x02; Byte.x03; Byte.x04; Byte.x05; Byte.x06].

(** SOURCE_COPY of blocks 0-1 of the old image to the destination blocks
    0 and 2. *)
Definition fragmented_copy : fetched_op :=
  op um.SOURCE_COPY [extent 0 2] [extent 0 1; extent 2 1] [].

(** SOURCE_BSDIFF of blocks 0-1 of the old image to the destination blocks
    0-1, with a patch whose output is the single block [aa bb]. *)
Definition short_patch : bytes := [Byte.xaa; Byte.xbb].

Definition short_bsdiff : fetched_op :=
  op um.SOURCE_BSDIFF [extent 0 2] [extent 0 2] short_patch.

(** ZERO of block 1, on a file of five bytes. *)
Definition zero_block1 : fetched_op := op um.ZERO [] [extent 1 1] [].

Definition five_bytes : file :=
  File [Byte.x01; Byte.x02; Byte.x03; Byte.x04; Byte.x05] 0.

(** REPLACE of block 1 by a payload of three bytes, one more than the
    block holds. *)
Definition replace_block1_long : fetched_op :=
  op um.REPLACE [] [extent 1 1] [Byte.x0a; Byte.x0b; Byte.x0c].

(** A payload that ends with its header: a valid header announcing an
    empty manifest and one byte of metadata signature. *)
Definition short_payload : bytes :=
  CrAU
  ++ [x00; x00; x00; x00; x00; x00; x00; Byte.x02]
  ++ [x00; x00; x00; x00; x00; x00; x00; x00]
  ++ [x00; x00; x00; Byte.x01].

(** A payload whose header passes the three checks and announces a
    manifest of 2^63 bytes. *)
Definition huge_manifest : bytes :=
  CrAU
  ++ [x00; x00; x00; x00; x00; x00; x00; Byte.x02]
  ++ [Byte.x80; x00; x00; x00; x00; x00; x00; x00]
  ++ [x00; x00; x00; x00]
  ++ [Byte.x0a].





(** A manifest with one partition, [boot], without operations. *)
Definition boot_empty : um.DeltaArchiveManifest :=
  {| um.block_size := 2;
     um.partitions :=
       [ {| um.partition_name := "boot"; um.operations := [] |} ] |}.

(** A manifest with the partitions [a] and [b], in this order, each with
    one operation on one byte of the data region. *)
Definition fetch_one (offset : N) : um.InstallOperation :=
  {| um.type := um.REPLACE; um.data_offset := offset; um.data_length := 1;
     um.src_extents := []; um.dst_extents := [extent 0 1];
     um.data_sha256_hash := [] |}.

Definition a_then_b : um.DeltaArchiveManifest :=
  {| um.block_size := 2;
     um.partitions :=
       [ {| um.partition_name := "a"; um.operations := [fetch_one 0] |};
         {| um.partition_name := "b"; um.operations := [fetch_one 1] |} ] |}.

(** Extents that follow one another from block 5 on. *)
Definition from_block5 : list um.Extent := [extent 5 1; extent 6 2].

(** * Further vocabulary *)

(** Extents that tile the blocks 0 to 2. *)
Definition from_block0 : list um.Extent := [extent 0 2; extent 2 1].

(** ** Operations as writes

    What an operation does to the output file, as the list of its writes:
    each is an offset and the bytes written there, in the order in which
    [data_for_op] writes them. *)

Definition apply_write (f : file) (w : nat * bytes) : file :=
  write (seek f w.1) w.2.

Definition apply_writes (f : file) (ws : list (nat * bytes)) : file :=
  foldl apply_write f ws.

(** Offset [i] lies in the range that [w] writes. *)
Definition covers (w : nat * bytes) (i : nat) : Prop :=
  w.1 ≤ i < w.1 + length w.2.

(** The byte that the last write of [ws] that covers [i] puts there. *)
Fixpoint last_cover (ws : list (nat * bytes)) (i : nat) : option byte :=
  match ws with
  | [] => None
  | w :: ws' =>
      match last_cover ws' i with
      | Some b => Some b
      | None => if decide (covers w i) then w.2 !! (i - w.1) else None
      end
  end.

(** Some write of [ws] starts beyond [i] and writes something: a file
    that ends before [i] is padded up to there. *)
Definition padded (ws : list (nat * bytes)) (i : nat) : bool :=
  bool_decide (Exists (λ w, w.2 ≠ [] ∧ i < w.1) ws).

(** The file after the writes [ws], byte by byte. *)
Definition written (c : bytes) (ws : list (nat * bytes)) (i : nat)
  : option byte :=
  match last_cover ws i with
  | Some b => Some b
  | None =>
      match c !! i with
      | Some b => Some b
      | None => if padded ws i then Some x00 else None
      end
  end.

(** The bytes of the old image that SOURCE_COPY and SOURCE_BSDIFF gather;
    the old image is not touched when there are no source extents. *)
Definition gathered (d : Dumper) (old_file : option bytes)
    (exts : list um.Extent) : result bytes :=
  match exts with
  | [] => Ok []
  | _ => image ←r old_image old_file; Ok (gather d image exts)
  end.

(** The writes of the loop over [dst_extents] of SOURCE_BSDIFF. *)
Fixpoint scatter_writes (d : Dumper) (buffer : bytes) (n : N)
    (exts : list um.Extent) : list (nat * bytes) :=
  match exts with
  | [] => []
  | ext :: exts' =>
      (in_bytes d (um.start_block ext),
       read_at buffer (in_bytes d n) (in_bytes d (um.num_blocks ext)))
      :: scatter_writes d buffer (n + um.num_blocks ext) exts'
  end.

(** The writes of ZERO. *)
Definition zero_writes (d : Dumper) (exts : list um.Extent)
  : list (nat * bytes) :=
  map (λ ext, (in_bytes d (um.start_block ext),
               replicate (in_bytes d (um.num_blocks ext)) x00)) exts.

(** The writes of an operation, or how it fails: nothing here looks at
    the output file. *)
Definition op_writes (L : libraries) (d : Dumper) (fetched : fetched_op)
    (old_file : option bytes) : result (list (nat * bytes)) :=
  let op := operation fetched in
  match um.type op with
  | um.REPLACE_XZ =>
      payload ←r or_raise LZMAError (lzma_decompress L (data fetched));
      ext ←r first_extent (um.dst_extents op);
      Ok [(in_bytes d (um.start_block ext), payload)]
  | um.REPLACE_BZ =>
      payload ←r or_raise BZ2Error (bz2_decompress L (data fetched));
      ext ←r first_extent (um.dst_extents op);
      Ok [(in_bytes d (um.start_block ext), payload)]
  | um.REPLACE =>
      ext ←r first_extent (um.dst_extents op);
      Ok [(in_bytes d (um.start_block ext), data fetched)]
  | um.SOURCE_COPY =>
      if negb (diff d) then SystemExit (-2) else
      ext ←r first_extent (um.dst_extents op);
      old_data ←r gathered d old_file (um.src_extents op);
      Ok [(in_bytes d (um.start_block ext), old_data)]
  | um.SOURCE_BSDIFF =>
      if negb (diff d) then SystemExit (-3) else
      ext ←r first_extent (um.dst_extents op);
      old_data ←r gathered d old_file (um.src_extents op);
      patched ←r or_raise PatchError (bsdiff4_patch L old_data (data fetched));
      Ok (scatter_writes d (patched ++ drop (length patched) old_data) 0
            (um.dst_extents op))
  | um.ZERO => Ok (zero_writes d (um.dst_extents op))
  | um.OtherType _ => SystemExit (-1)
  end.

(** The writes of the operations of a partition, up to the first that
    fails, and how the loop over them ends. *)
Fixpoint ops_writes (L : libraries) (d : Dumper) (ops : list fetched_op)
    (old_file : option bytes) : list (nat * bytes) * result () :=
  match ops with
  | [] => ([], Ok ())
  | o :: ops' =>
      match op_writes L d o old_file with
      | Ok ws =>
          let '(ws', r) := ops_writes L d ops' old_file in (ws ++ ws', r)
      | Raise e => ([], Raise e)
      | SystemExit c => ([], SystemExit c)
      end
  end.

(** ** Tasks *)

(** What the task of a partition leaves in its output file, and how it
    ends, given what [open] finds at the path of the old image. *)
Definition task_result (L : libraries) (d : Dumper) (part : fetched_part)
    (old_found : option bytes) : bytes * result () :=
  if diff d then
    match old_found with
    | Some image =>
        let '(out_file, r) :=
          apply_operations L d (operations part) (File [] 0) (Some image) in
        (contents out_file, r)
    | None => ([], Raise FileNotFoundError)
    end
  else
    let '(out_file, r) :=
      apply_operations L d (operations part) (File [] 0) None in
    (contents out_file, r).

(** The operations [ops] are replacements whose payloads are [payloads],
    each written where the one before it ends, the first at [off]. *)
Fixpoint replaces_from (L : libraries) (d : Dumper) (off : nat)
    (ops : list fetched_op) (payloads : list bytes) : Prop :=
  match ops, payloads with
  | [], [] => True
  | o :: ops', payload :: payloads' =>
      replace_payload L (um.type (operation o)) (data o) = Some payload
      ∧ (∃ ext, head (um.dst_extents (operation o)) = Some ext
                ∧ in_bytes d (um.start_block ext) = off)
      ∧ replaces_from L d (off + length payload) ops' payloads'
  | _, _ => False
  end.

(** A fetched partition from its name and its fetched operations. *)
Definition part_of (name : string) (ops : list fetched_op) : fetched_part :=
  {| partition :=
       {| um.partition_name := name;
          um.operations := map operation ops |};
     operations := ops |}.

(** Two partitions of one REPLACE each, and one of two REPLACE operations
    that follow one another. *)
Definition part_a : fetched_part :=
  part_of "a" [op um.REPLACE [] [extent 0 1] [Byte.x01; Byte.x02]].

Definition part_b : fetched_part :=
  part_of "b" [op um.REPLACE [] [extent 0 1] [Byte.x03; Byte.x04]].

Definition part_ab : fetched_part :=
  part_of "ab" [op um.REPLACE [] [extent 0 1] [Byte.x01; Byte.x02];
                op um.REPLACE [] [extent 1 2]
                   [Byte.x03; Byte.x04; Byte.x05; Byte.x06]].

(** SOURCE_COPY of blocks 1-2 of the old image to the destination blocks
    3 and 4, given as two extents. *)
Definition contiguous_copy : fetched_op :=
  op um.SOURCE_COPY [extent 1 2] [extent 3 1; extent 4 1] [].

(** ** Selection *)

(** The partition with the name [image], as the inner loop of [run] finds
    it: the first one of the manifest. *)
Definition find_partition (d : Dumper) (image : string)
  : option um.PartitionUpdate :=
  find (λ dam_part, bool_decide (um.partition_name dam_part = image))
       (um.partitions (dam d)).

(** The names of the partitions of the manifest. *)
Definition manifest_names (d : Dumper) : list string :=
  map um.partition_name (um.partitions (dam d)).

(** The requested names that no partition of the manifest has, in the
    order of the request. *)
Definition missing_images (d : Dumper) : list string :=
  match images d with
  | None => []
  | Some names => filter (λ image, image ∉ manifest_names d) names
  end.

(** The payload file holds the payload bytes of every operation of the
    selected partitions, so that every seek and every read of [run] stays
    within the file. *)
Definition data_in_payload (d : Dumper) (w : world) : Prop :=
  Forall (λ o, (N.of_nat (data_offset d) + um.data_offset o
                + um.data_length o
                ≤ N.of_nat (length (contents (payloadfile w))))%N)
         (concat (map um.operations (selected_partitions d))).

(** A dumper whose pool has no worker, as [--workers 0] gives it. *)
Definition no_worker (images : option (list string))
    (dam : um.DeltaArchiveManifest) : Dumper :=
  {| out := "out"; diff := false; old := "old"; images := images;
     workers := 0; metadata_signature := []; data_offset := 25;
     dam := dam; block_size := um.block_size dam |}.

(** ** update_download_progress

    The progress bar of a download is a counter of the [enlighten]
    manager: [manager.counter(total=...)] makes one whose [count] is 0,
    [update(incr)] adds [incr] to its [count], and [close()] ends it. The
    state of the method is [self.download_progress]; [prog] and [total]
    are the byte counts that the payload file reports. *)

Record counter := { total : Z; count : Z }.

Definition update (c : counter) (incr : Z) : counter :=
  {| total := total c; count := count c + incr |}.

Definition update_download_progress (download_progress : option counter)
    (prog total : Z) : option counter :=
  let download_progress :=
    match download_progress with
    | None =>
        if negb (prog =? total)%Z then Some {| total := total; count := 0 |}
        else None
    | Some c => Some c
    end in
  match download_progress with
  | Some c =>
      let c := update c (prog - count c) in
      if (prog =? total)%Z then None else Some c
  | None => None
  end.

(** The reports of a download, one after the other. *)
Definition download (download_progress : option counter)
    (reports : list (Z * Z)) : option counter :=
  foldl (λ st r, update_download_progress st r.1 r.2) download_progress
        reports.

(** * Properties *)

(** ** verify_contiguous *)

Lemma verify_contiguous_loop_spec (exts : list um.Extent) (blocks : N) :
  verify_contiguous_loop blocks exts = true ↔
  ∀ i ext, exts !! i = Some ext →
    um.start_block ext = (blocks + total_blocks (take i exts))%N.
Proof.
  revert blocks. induction exts as [|e exts IH]; intros blocks; simpl.
  - split; [intros _ i ext H; by rewrite lookup_nil in H | done].
  - destruct (N.eqb_spec (um.start_block e) blocks) as [Heq|Hne]; simpl.
    + rewrite IH. split.
      * intros H [|i] ext Hi; simpl in *.
        -- inversion Hi; subst. unfold total_blocks. simpl. lia.
        -- rewrite (H i ext Hi). unfold total_blocks. simpl. lia.
      * intros H i ext Hi. rewrite (H (S i) ext Hi).
        unfold total_blocks. simpl. lia.
    + split; [done|]. intros H. exfalso. apply Hne.
      rewrite (H 0 e eq_refl). unfold total_blocks. simpl. lia.
Qed.

(** C8, as the code has it: [verify_contiguous] returns true exactly when
    every extent's [start_block] is the sum of the [num_blocks] of the
    extents before it, the sum starting from 0. *)
Theorem verify_contiguous_from_zero (exts : list um.Extent) :
  verify_contiguous exts = true ↔ contiguous_from_zero exts.
Proof.
  unfold verify_contiguous, contiguous_from_zero.
  rewrite verify_contiguous_loop_spec. by setoid_rewrite N.add_0_l.
Qed.

(** C8 fails as stated: the extents (5,1),(6,2) follow back to back from a
    first extent at block 5, so they are contiguous in the specification's
    sense, and [verify_contiguous] returns false. *)
Lemma verify_contiguous_nonzero_start :
  contiguous_spec from_block5 ∧ verify_contiguous from_block5 = false.
Proof.
  split; [|reflexivity].
  intros first Hfirst i ext Hi. inversion Hfirst; subst; clear Hfirst.
  destruct i as [|[|i]]; simpl in Hi; inversion Hi; subst; reflexivity.
Qed.

(** ** File handles *)

Lemma contents_write (f : file) (data : bytes) :
  data ≠ [] →
  contents (write f data) =
    take (position f) (contents f)
      ++ replicate (position f - length (contents f)) x00
      ++ data ++ drop (position f + length data) (contents f).
Proof. by destruct data. Qed.

Lemma position_write (f : file) (data : bytes) :
  position (write f data) = position f + length data.
Proof. destruct data; simpl; lia. Qed.

Lemma lookup_write_inside (f : file) (data : bytes) (i : nat) :
  position f ≤ i < position f + length data →
  contents (write f data) !! i = data !! (i - position f).
Proof.
  intros Hi. rewrite contents_write by (destruct data; simpl in *; [lia|done]).
  assert (length (take (position f) (contents f)
            ++ replicate (position f - length (contents f)) x00) = position f)
    as Hlen by (rewrite length_app, length_take, length_replicate; lia).
  rewrite app_assoc, lookup_app_r by lia.
  rewrite Hlen, lookup_app_l by lia. done.
Qed.

Lemma lookup_write_outside (f : file) (data : bytes) (i : nat) :
  i < position f ∨ position f + length data ≤ i →
  i < length (contents f) →
  contents (write f data) !! i = contents f !! i.
Proof.
  intros Hi Hlt. destruct (decide (data = [])) as [->|Hne]; [done|].
  rewrite contents_write by done.
  destruct Hi as [Hi|Hi].
  - rewrite lookup_app_l by (rewrite length_take; lia).
    by rewrite lookup_take_lt by lia.
  - assert (position f - length (contents f) = 0) as -> by lia. simpl.
    rewrite lookup_app_r by (rewrite length_take; lia).
    rewrite length_take, lookup_app_r by lia.
    rewrite lookup_drop. f_equal. lia.
Qed.

Lemma lookup_write_beyond (f : file) (data : bytes) (i : nat) :
  i < position f ∨ position f + length data ≤ i →
  length (contents f) ≤ i →
  contents (write f data) !! i = None ∨ contents (write f data) !! i = Some x00.
Proof.
  intros Hi Hge. destruct (decide (data = [])) as [->|Hne].
  - left. simpl. by apply lookup_ge_None.
  - rewrite contents_write by done. destruct Hi as [Hi|Hi].
    + right. rewrite lookup_app_r by (rewrite length_take; lia).
      rewrite length_take, lookup_app_l by (rewrite length_replicate; lia).
      apply lookup_replicate_2. lia.
    + left. apply lookup_ge_None.
      rewrite !length_app, length_take, length_replicate, length_drop. lia.
Qed.

(** ** ZERO *)

Lemma in_bytes_add (d : Dumper) (a b : N) :
  in_bytes d (a + b) = in_bytes d a + in_bytes d b.
Proof. unfold in_bytes. rewrite N.mul_add_distr_r. lia. Qed.

Lemma zero_step_inside d f ext i :
  in_extent d ext i → contents (zero_step d f ext) !! i = Some x00.
Proof.
  unfold in_extent, zero_step. rewrite in_bytes_add. intros Hi.
  rewrite lookup_write_inside by (simpl; rewrite length_replicate; lia).
  apply lookup_replicate_2. simpl. lia.
Qed.

Lemma zero_step_outside d f ext i :
  ¬ in_extent d ext i → i < length (contents f) →
  contents (zero_step d f ext) !! i = contents f !! i.
Proof.
  unfold in_extent, zero_step. rewrite in_bytes_add. intros Hi Hlt.
  apply (lookup_write_outside (seek f _)); simpl; [|done].
  rewrite length_replicate. lia.
Qed.

Lemma zero_step_beyond d f ext i :
  ¬ in_extent d ext i → length (contents f) ≤ i →
  contents (zero_step d f ext) !! i = None
  ∨ contents (zero_step d f ext) !! i = Some x00.
Proof.
  unfold in_extent, zero_step. rewrite in_bytes_add. intros Hi Hge.
  apply (lookup_write_beyond (seek f _)); simpl; [|done].
  rewrite length_replicate. lia.
Qed.

Lemma zero_loop_lookup d exts f i :
  let f' := foldl (zero_step d) f exts in
  (in_extents d exts i → contents f' !! i = Some x00)
  ∧ (¬ in_extents d exts i → i < length (contents f) →
       contents f' !! i = contents f !! i)
  ∧ (¬ in_extents d exts i → length (contents f) ≤ i →
       contents f' !! i = None ∨ contents f' !! i = Some x00).
Proof.
  induction exts as [|ext exts IH] using rev_ind; simpl.
  - split_and!.
    + intros (ext & Hin & _). by apply elem_of_nil in Hin.
    + done.
    + intros _ Hge. left. by apply lookup_ge_None.
  - rewrite foldl_app. simpl. destruct IH as (IH1 & IH2 & IH3).
    set (f' := foldl (zero_step d) f exts) in *.
    assert (in_extents d (exts ++ [ext]) i ↔
            in_extents d exts i ∨ in_extent d ext i) as Hsplit.
    { unfold in_extents. split.
      - intros (e & [He|He]%elem_of_app & Hi); [left; eauto|].
        apply list_elem_of_singleton in He as ->. by right.
      - intros [(e & He & Hi)|Hi].
        + exists e. split; [apply elem_of_app; by left|done].
        + exists ext. split; [apply elem_of_app; right; by left|done]. }
    destruct (decide (in_bytes d (um.start_block ext) ≤ i
                      < in_bytes d (um.start_block ext + um.num_blocks ext)))
      as [Hext|Hext].
    + split_and!; [intros _; by apply zero_step_inside| |];
        intros Hn; exfalso; apply Hn, Hsplit; by right.
    + split_and!.
      * intros [Hin|?]%Hsplit; [|done].
        rewrite zero_step_outside; [by apply IH1|done|].
        apply lookup_lt_is_Some. rewrite IH1 by done. eauto.
      * intros Hn Hlt. assert (¬ in_extents d exts i) by (rewrite Hsplit in Hn; tauto).
        rewrite zero_step_outside; [by apply IH2|done|].
        apply lookup_lt_is_Some. rewrite IH2 by done.
        by apply lookup_lt_is_Some.
      * intros Hn Hge. assert (¬ in_extents d exts i) by (rewrite Hsplit in Hn; tauto).
        destruct (decide (i < length (contents f'))) as [Hlt|Hlt].
        -- rewrite zero_step_outside by done. by apply IH3.
        -- apply zero_step_beyond; [done|lia].
Qed.

(** C4: a ZERO operation always succeeds; afterwards every byte of the
    output file in the union of the byte ranges of [dst_extents] is 0x00,
    and every byte the file held before the operation outside that union is
    what it was. (A byte outside the union that the file did not hold
    before is either still absent or part of the zero padding between the
    old end of the file and a range written beyond it.) *)
Theorem zero_fills_dst_extents L d fetched out_file old_file :
  um.type (operation fetched) = um.ZERO →
  ∃ out_file',
    data_for_op L d fetched out_file old_file = Ok out_file'
    ∧ (∀ i, in_extents d (um.dst_extents (operation fetched)) i →
         contents out_file' !! i = Some x00)
    ∧ (∀ i, ¬ in_extents d (um.dst_extents (operation fetched)) i →
         i < length (contents out_file) →
         contents out_file' !! i = contents out_file !! i)
    ∧ (∀ i, ¬ in_extents d (um.dst_extents (operation fetched)) i →
         length (contents out_file) ≤ i →
         contents out_file' !! i = None ∨ contents out_file' !! i = Some x00).
Proof.
  intros Hty. unfold data_for_op. rewrite Hty. eexists. split; [done|].
  split_and!; intros i; by apply zero_loop_lookup.
Qed.

(** C4 on [zero_block1]: of the five bytes, those of block 1 become zero
    and the others stay. *)
Lemma zero_fills_dst_extents_witness :
  let d := small_dumper false None no_partitions in
  data_for_op (stand_in no_partitions) d zero_block1 five_bytes None
  = Ok (File [Byte.x01; Byte.x02; x00; x00; Byte.x05] 4)
  ∧ ∃ out_file',
      data_for_op (stand_in no_partitions) d zero_block1 five_bytes None
      = Ok out_file'
      ∧ (∀ i, in_extents d [extent 1 1] i →
           contents out_file' !! i = Some x00)
      ∧ (∀ i, ¬ in_extents d [extent 1 1] i → i < 5 →
           contents out_file' !! i = contents five_bytes !! i)
      ∧ (∀ i, ¬ in_extents d [extent 1 1] i → 5 ≤ i →
           contents out_file' !! i = None
           ∨ contents out_file' !! i = Some x00).
Proof.
  intros d. split; [reflexivity|].
  apply (zero_fills_dst_extents (stand_in no_partitions) d zero_block1
           five_bytes None).
  reflexivity.
Defined.

(** ** REPLACE, REPLACE_XZ, REPLACE_BZ *)

Lemma slice_write_inside (f : file) (data : bytes) :
  slice (position f) (position f + length data) (contents (write f data))
  = data.
Proof.
  unfold slice. destruct (decide (data = [])) as [->|Hne].
  - simpl. by rewrite Nat.add_0_r, Nat.sub_diag.
  - rewrite contents_write by done.
    assert (length (take (position f) (contents f)
              ++ replicate (position f - length (contents f)) x00)
            = position f) as Hlen
      by (rewrite length_app, length_take, length_replicate; lia).
    rewrite app_assoc, drop_app_length' by done.
    replace (position f + length data - position f) with (length data) by lia.
    by rewrite take_app_length.
Qed.

(** C10: a REPLACE, REPLACE_XZ or REPLACE_BZ operation writes its payload
    (raw, or decompressed) whole at the byte offset of [dst_extents[0]]:
    the output file then holds exactly the payload's bytes from that offset
    on, for the payload's length, whatever [num_blocks] of that extent or
    the further extents are (so also beyond the end of that extent, when
    the payload is longer), and the bytes it held outside that range are
    unchanged. *)
Theorem replace_writes_whole_payload L d fetched out_file old_file
    payload ext rest :
  replace_payload L (um.type (operation fetched)) (data fetched)
    = Some payload →
  um.dst_extents (operation fetched) = ext :: rest →
  let off := in_bytes d (um.start_block ext) in
  ∃ out_file',
    data_for_op L d fetched out_file old_file = Ok out_file'
    ∧ out_file' = write (seek out_file off) payload
    ∧ slice off (off + length payload) (contents out_file') = payload
    ∧ (∀ i, i < length payload →
         contents out_file' !! (off + i) = payload !! i)
    ∧ (∀ i, i < off ∨ off + length payload ≤ i →
         i < length (contents out_file) →
         contents out_file' !! i = contents out_file !! i).
Proof.
  intros Hpayload Hdst off.
  exists (write (seek out_file off) payload). split_and!.
  - unfold data_for_op, replace_payload in *. rewrite Hdst.
    destruct (um.type (operation fetched)); try done; simpl in *.
    + by inversion Hpayload.
    + by rewrite Hpayload.
    + by rewrite Hpayload.
  - done.
  - apply (slice_write_inside (seek out_file off)).
  - intros i Hi.
    rewrite (lookup_write_inside (seek out_file off)) by (simpl; lia).
    simpl. f_equal. lia.
  - intros i Hi Hlt. by apply (lookup_write_outside (seek out_file off)).
Qed.

(** C10 on [replace_block1_long]: the three bytes are written from the
    start of block 1 on, one of them beyond its end. *)
Lemma replace_writes_whole_payload_witness :
  ∃ out_file',
    data_for_op (stand_in no_partitions)
      (small_dumper false None no_partitions) replace_block1_long
      (File [] 0) None = Ok out_file'
    ∧ out_file' = File [x00; x00; Byte.x0a; Byte.x0b; Byte.x0c] 5
    ∧ slice 2 5 (contents out_file') = [Byte.x0a; Byte.x0b; Byte.x0c].
Proof.
  destruct (replace_writes_whole_payload (stand_in no_partitions)
              (small_dumper false None no_partitions) replace_block1_long
              (File [] 0) None [Byte.x0a; Byte.x0b; Byte.x0c]
              (extent 1 1) [])
    as (out_file' & Hop & Hout & Hslice & _ & _).
  - reflexivity.
  - reflexivity.
  - exists out_file'. split_and!; [exact Hop|exact Hout|exact Hslice].
Defined.

(** ** SOURCE_COPY and SOURCE_BSDIFF *)

Lemma read_at_slice (image : bytes) (off n : nat) :
  read_at image off n = slice off (off + n) image.
Proof. unfold read_at, slice, read. simpl. f_equal. lia. Qed.

Lemma write_write (f : file) (a b : bytes) :
  write (write f a) b = write f (a ++ b).
Proof.
  destruct (decide (a = [])) as [->|Ha]; [done|].
  destruct (decide (b = [])) as [->|Hb]; [by rewrite app_nil_r|].
  assert (a ++ b ≠ []) as Hab by (intros [? ?]%app_eq_nil; done).
  destruct f as [c p].
  assert (∀ x y : file, contents x = contents y → position x = position y →
            x = y) as Hext by (intros [? ?] [? ?]; simpl; congruence).
  apply Hext; [|rewrite !position_write, length_app; lia].
  rewrite (contents_write (write _ _)) by done.
  rewrite position_write. rewrite !contents_write by done. simpl.
  set (pre := take p c ++ replicate (p - length c) x00).
  assert (length pre = p) as Hpre
    by (unfold pre; rewrite length_app, length_take, length_replicate; lia).
  rewrite !(app_assoc (take p c)). fold pre.
  rewrite (app_assoc pre a).
  rewrite take_app_length' by (rewrite length_app; lia).
  rewrite drop_app_ge by (rewrite length_app; lia).
  rewrite !length_app, length_drop, Hpre.
  replace (p + length a - (p + length a + (length c - (p + length a))))
    with 0 by lia.
  simpl. rewrite drop_drop. rewrite <- !app_assoc. do 4 f_equal. lia.
Qed.

Lemma write_empty_file (data : bytes) :
  write (File [] 0) data = File data (length data).
Proof. destruct data; [done|]. unfold write. simpl. by rewrite app_nil_r. Qed.

Lemma copy_src_extents_gather d image exts sink :
  copy_src_extents d (Some image) exts sink
  = Ok (write sink (gather d image exts)).
Proof.
  unfold copy_src_extents, gather. revert sink.
  induction exts as [|ext exts IH]; intros sink; simpl; [done|].
  by rewrite IH, write_write.
Qed.

(** What SOURCE_COPY does in differential mode: the gathered bytes of the
    old image go to the output file in one piece, at the byte offset of
    [dst_extents[0]]. *)
Lemma source_copy_at_first_extent L d fetched out_file image ext rest :
  um.type (operation fetched) = um.SOURCE_COPY →
  diff d = true →
  um.dst_extents (operation fetched) = ext :: rest →
  data_for_op L d fetched out_file (Some image)
  = Ok (write (seek out_file (in_bytes d (um.start_block ext)))
              (gather d image (um.src_extents (operation fetched)))).
Proof.
  intros Hty Hdiff Hdst. unfold data_for_op.
  rewrite Hty, Hdiff, Hdst. simpl. apply copy_src_extents_gather.
Qed.

(** The extents (0,2),(5,1) with a block size of 4096 gather
    [old_image[0:8192] ++ old_image[20480:24576]]. *)
Lemma gather_example d (old_image : bytes) :
  block_size d = 4096%N →
  gather d old_image [ {| um.start_block := 0; um.num_blocks := 2 |};
                       {| um.start_block := 5; um.num_blocks := 1 |} ]
  = slice 0 8192 old_image ++ slice 20480 24576 old_image.
Proof.
  intros Hbs. unfold gather, in_bytes. simpl. rewrite Hbs, !read_at_slice.
  rewrite app_nil_r. reflexivity.
Qed.

Lemma scatter_loop d exts n tmp_buff out_file :
  ∃ tmp_buff',
    foldl (scatter_step d) (n, tmp_buff, out_file) exts
    = ((n + total_blocks exts)%N, tmp_buff',
       scatter_from d (contents tmp_buff) n exts out_file)
    ∧ contents tmp_buff' = contents tmp_buff.
Proof.
  revert n tmp_buff out_file.
  induction exts as [|ext exts IH]; intros n tmp_buff out_file; simpl.
  - exists tmp_buff. by rewrite N.add_0_r.
  - destruct (scatter_step d (n, tmp_buff, out_file) ext) as [[n' t'] o'] eqn:Hs.
    unfold scatter_step, read in Hs. simpl in Hs. inversion Hs; subst; clear Hs.
    match goal with |- context [foldl _ (_, ?t, ?o) _] =>
      destruct (IH (n + um.num_blocks ext)%N t o) as (tmp' & -> & Hc) end.
    exists tmp'. split; [|exact Hc].
    unfold total_blocks. simpl. f_equal. f_equal. lia.
Qed.

Lemma scatter_scatter_from d exts tmp_buff out_file :
  scatter d exts tmp_buff out_file
  = scatter_from d (contents tmp_buff) 0 exts out_file.
Proof.
  unfold scatter.
  destruct (scatter_loop d exts 0 (seek tmp_buff 0) out_file) as (? & -> & _).
  done.
Qed.

(** What SOURCE_BSDIFF does in differential mode. The scratch buffer holds
    the gathered bytes when the patched output is written over them from
    position 0, so it then holds the patched output followed by the gathered
    bytes beyond the patched output's length; the loop over [dst_extents]
    reads from that buffer. *)
Lemma source_bsdiff_scatter L d fetched out_file image ext rest patched :
  um.type (operation fetched) = um.SOURCE_BSDIFF →
  diff d = true →
  um.dst_extents (operation fetched) = ext :: rest →
  let old_data := gather d image (um.src_extents (operation fetched)) in
  bsdiff4_patch L old_data (data fetched) = Some patched →
  data_for_op L d fetched out_file (Some image)
  = Ok (scatter_from d (patched ++ drop (length patched) old_data) 0
          (ext :: rest) out_file).
Proof.
  intros Hty Hdiff Hdst old_data Hpatch. unfold data_for_op.
  rewrite Hty, Hdiff, Hdst. simpl.
  rewrite copy_src_extents_gather, write_empty_file. cbn.
  fold old_data. rewrite drop_0, Hpatch. cbn.
  rewrite scatter_scatter_from.
  assert (contents (write (seek (File old_data (length old_data)) 0) patched)
          = patched ++ drop (length patched) old_data) as ->.
  { destruct (decide (patched = [])) as [->|Hne]; [done|].
    rewrite contents_write by done. cbn.
    by rewrite take_0, Nat.sub_0_l. }
  reflexivity.
Qed.

(** ** SOURCE_COPY: the destination extents *)

(** C2 at a fragmented destination: the two gathered blocks are to go to
    the destination blocks 0 and 2, which is what scattering over
    [dst_extents] gives; the code writes them to blocks 0 and 1. *)
Theorem source_copy_fragmented_destination (L : libraries) :
  let d := small_dumper true None no_partitions in
  let o := operation fragmented_copy in
  data_for_op L d fragmented_copy (File [] 0) (Some old_image6)
    = Ok (File [Byte.x01; Byte.x02; Byte.x03; Byte.x04] 4)
  ∧ scatter_from d (gather d old_image6 (um.src_extents o)) 0
      (um.dst_extents o) (File [] 0)
    = File [Byte.x01; Byte.x02; x00; x00; Byte.x03; Byte.x04] 6.
Proof. split; reflexivity. Qed.

(** ** SOURCE_BSDIFF: the scratch buffer *)

(** C1 at a patch whose output is shorter than the gathered source bytes:
    scattering the patched output gives the one block [aa bb]; the code
    also writes block 1 of the old image, left in the scratch buffer
    behind the patched output. *)
Theorem source_bsdiff_short_patch (L : libraries) :
  let d := small_dumper true None no_partitions in
  let o := operation short_bsdiff in
  bsdiff4_patch L (gather d old_image6 (um.src_extents o)) short_patch
    = Some [Byte.xaa; Byte.xbb] →
  data_for_op L d short_bsdiff (File [] 0) (Some old_image6)
    = Ok (File [Byte.xaa; Byte.xbb; Byte.x03; Byte.x04] 4)
  ∧ scatter_from d [Byte.xaa; Byte.xbb] 0 (um.dst_extents o) (File [] 0)
    = File [Byte.xaa; Byte.xbb] 2.
Proof.
  intros d o Hpatch. split; [|reflexivity].
  rewrite (source_bsdiff_scatter L d short_bsdiff (File [] 0) old_image6
             (extent 0 2) [] [Byte.xaa; Byte.xbb]); done.
Qed.

(** C1 with the stand-in patcher, which returns [short_patch]. *)
Lemma source_bsdiff_short_patch_witness :
  data_for_op (stand_in no_partitions) (small_dumper true None no_partitions)
    short_bsdiff (File [] 0) (Some old_image6)
    = Ok (File [Byte.xaa; Byte.xbb; Byte.x03; Byte.x04] 4)
  ∧ scatter_from (small_dumper true None no_partitions)
      [Byte.xaa; Byte.xbb] 0 (um.dst_extents (operation short_bsdiff))
      (File [] 0)
    = File [Byte.xaa; Byte.xbb] 2.
Proof.
  apply (source_bsdiff_short_patch (stand_in no_partitions)). reflexivity.
Defined.

(** When the patched output is at least as long as the gathered source
    bytes, nothing of them is left in the scratch buffer, and SOURCE_BSDIFF
    scatters the patched output itself. *)
Lemma source_bsdiff_scatter_patched L d fetched out_file image ext rest patched :
  um.type (operation fetched) = um.SOURCE_BSDIFF →
  diff d = true →
  um.dst_extents (operation fetched) = ext :: rest →
  let old_data := gather d image (um.src_extents (operation fetched)) in
  bsdiff4_patch L old_data (data fetched) = Some patched →
  length old_data ≤ length patched →
  data_for_op L d fetched out_file (Some image)
  = Ok (scatter_from d patched 0 (ext :: rest) out_file).
Proof.
  intros Hty Hdiff Hdst old_data Hpatch Hlen.
  rewrite (source_bsdiff_scatter L d fetched out_file image ext rest patched)
    by done.
  fold old_data. by rewrite drop_ge, app_nil_r.
Qed.

Lemma read_at_app_l (buffer tail : bytes) (off n : nat) :
  off + n ≤ length buffer →
  read_at (buffer ++ tail) off n = read_at buffer off n.
Proof.
  intros H. rewrite !read_at_slice. unfold slice.
  rewrite drop_app_le by lia.
  rewrite take_app_le by (rewrite length_drop; lia). done.
Qed.

Lemma scatter_from_app_l d (buffer tail : bytes) n exts out_file :
  in_bytes d (n + total_blocks exts) ≤ length buffer →
  scatter_from d (buffer ++ tail) n exts out_file
  = scatter_from d buffer n exts out_file.
Proof.
  revert n out_file. induction exts as [|ext exts IH]; intros n out_file H;
    simpl; [done|].
  unfold total_blocks in H. simpl in H. fold (total_blocks exts) in H.
  rewrite !in_bytes_add in H.
  rewrite read_at_app_l by lia.
  apply IH. rewrite !in_bytes_add. lia.
Qed.

(** When the patched output covers the destination extents, SOURCE_BSDIFF
    scatters the patched output itself: what is left of the gathered bytes
    in the scratch buffer lies behind what the loop reads. *)
Lemma source_bsdiff_scatter_covered L d fetched out_file image ext rest patched :
  um.type (operation fetched) = um.SOURCE_BSDIFF →
  diff d = true →
  um.dst_extents (operation fetched) = ext :: rest →
  let old_data := gather d image (um.src_extents (operation fetched)) in
  bsdiff4_patch L old_data (data fetched) = Some patched →
  in_bytes d (total_blocks (ext :: rest)) ≤ length patched →
  data_for_op L d fetched out_file (Some image)
  = Ok (scatter_from d patched 0 (ext :: rest) out_file).
Proof.
  intros Hty Hdiff Hdst old_data Hpatch Hlen.
  rewrite (source_bsdiff_scatter L d fetched out_file image ext rest patched)
    by done.
  by rewrite scatter_from_app_l.
Qed.

(** ** parse_metadata *)

Lemma length_slice (a b : nat) (x : bytes) :
  b ≤ length x → length (slice a b x) = b - a.
Proof. intros H. unfold slice. rewrite length_take, length_drop. lia. Qed.

Lemma slice_take (a b n : nat) (x : bytes) :
  b ≤ n → slice a b (take n x) = slice a b x.
Proof.
  intros H. unfold slice. rewrite skipn_firstn_comm.
  rewrite take_take. f_equal. lia.
Qed.

Lemma u64_slice (a b : nat) (x : bytes) :
  b = a + 8 → b ≤ length x → u64 (slice a b x) = Ok (be_value (slice a b x)).
Proof.
  intros -> H. unfold u64. by rewrite decide_True by (rewrite length_slice; lia).
Qed.

Lemma u32_slice (a b : nat) (x : bytes) :
  b = a + 4 → b ≤ length x → u32 (slice a b x) = Ok (be_value (slice a b x)).
Proof.
  intros -> H. unfold u32. by rewrite decide_True by (rewrite length_slice; lia).
Qed.

Lemma read_exn_inj (e e' : read_error) : read_exn e = read_exn e' → e = e'.
Proof. by destruct e, e'. Qed.

Lemma parse_metadata_eq L input :
  parse_metadata L (File input 0) =
  if decide (header_ok input) then
    match read_refused L input with
    | Some e => Raise (read_exn e)
    | None =>
        match ParseFromString L (manifest_bytes input) with
        | Some dam =>
            let offset :=
              length input
                `min` (24 + manifest_size_of input + signature_size_of input)
            in
            Ok ({| md_signature := signature_bytes input;
                   md_data_offset := offset;
                   md_dam := dam; md_block_size := um.block_size dam |},
                File input offset)
        | None => Raise DecodeError
        end
    end
  else Raise AssertionError.
Proof.
  unfold parse_metadata, read_refused, read_sized, read.
  cbn [contents position seek fst snd].
  rewrite drop_0.
  destruct (decide (header_ok input)) as [(Hlen & Hmagic & Hver)|Hno].
  - rewrite bool_decide_true by (rewrite length_take; lia). cbn [negb].
    rewrite !slice_take by lia.
    rewrite bool_decide_true by done. cbn [negb].
    rewrite (u64_slice 4 12) by (done || lia). cbn [rbind]. rewrite Hver.
    cbn [N.eqb Pos.eqb negb N.ltb N.compare Pos.compare Pos.compare_cont].
    rewrite (u64_slice 12 20), (u32_slice 20 24) by (done || lia). cbn [rbind].
    destruct (read_refuses L (be_value (slice 12 20 input))); [done|].
    cbn [rbind contents position].
    destruct (read_refuses L (be_value (slice 20 24 input))); [done|].
    cbn [rbind contents position].
    fold (manifest_size_of input) (signature_size_of input).
    set (m := manifest_size_of input). set (s := signature_size_of input).
    rewrite length_take.
    replace (0 + (4 + 8 + 8 + 4) `min` length input) with 24 by lia.
    assert (take m (drop 24 input) = manifest_bytes input) as ->.
    { unfold manifest_bytes, slice. fold m. f_equal. lia. }
    destruct (ParseFromString L (manifest_bytes input)) as [dam0|];
      cbn [or_raise rbind]; [|done].
    assert (take s (drop (24 + length (manifest_bytes input)) input)
            = signature_bytes input) as ->.
    { unfold signature_bytes, manifest_bytes, slice. fold m s.
      rewrite length_take, length_drop.
      replace (24 + m + s - (24 + m)) with s by lia.
      destruct (decide (m ≤ length input - 24)) as [Hm|Hm].
      - do 2 f_equal. lia.
      - by rewrite !drop_ge by lia. }
    unfold tell. cbn [position].
    assert (24 + length (manifest_bytes input) + length (signature_bytes input)
            = length input `min` (24 + m + s)) as ->; [|done].
    unfold signature_bytes, manifest_bytes, slice. fold m s.
    rewrite !length_take, !length_drop. lia.
  - case_bool_decide as Hl; cbn [negb]; [|done].
    rewrite length_take in Hl. rewrite !slice_take by lia.
    case_bool_decide as Hm; cbn [negb]; [|done].
    rewrite (u64_slice 4 12) by (done || lia). cbn [rbind].
    destruct (N.eqb_spec (be_value (slice 4 12 input)) 2) as [Hv|Hv];
      cbn [negb]; [|done].
    exfalso. apply Hno. split_and!; [lia|done|done].
Qed.

(** C3, as the code has it: [parse_metadata] fails when the input has
    fewer than 24 bytes, or its magic is not "CrAU", or its version is not
    2 (an [AssertionError]); when the payload file refuses to read the
    number of bytes that the header announces for the manifest, or else
    for the signature (the [OverflowError] or [MemoryError] of that read);
    and when the manifest bytes do not decode (a [DecodeError]); in these
    cases only, and in this order. For every other input it succeeds,
    having read the 24 header bytes, then what the input holds of the
    [manifest_size] manifest bytes, then what it holds of the
    [metadata_signature_size] signature bytes; the cursor is left at the
    smaller of the input's length and
       24 + manifest_size + metadata_signature_size,
    which is recorded as the base offset of the data region, and it is
    24 + manifest_size + metadata_signature_size when the input is that
    long. *)
Theorem parse_metadata_spec (L : libraries) (input : bytes) :
  let r := parse_metadata L (File input 0) in
  let m := manifest_size_of input in
  let s := signature_size_of input in
  (r = Raise AssertionError ↔
     length input < 24 ∨ slice 0 4 input ≠ CrAU
     ∨ be_value (slice 4 12 input) ≠ 2%N)
  ∧ (∀ e, r = Raise (read_exn e) ↔
       header_ok input ∧ read_refused L input = Some e)
  ∧ (r = Raise DecodeError ↔
       header_ok input ∧ read_refused L input = None
       ∧ ParseFromString L (manifest_bytes input) = None)
  ∧ ((∃ md f, r = Ok (md, f)) ↔
       header_ok input ∧ read_refused L input = None
       ∧ is_Some (ParseFromString L (manifest_bytes input)))
  ∧ (∀ e', r = Raise e' →
       e' = AssertionError ∨ (∃ e, e' = read_exn e) ∨ e' = DecodeError)
  ∧ (∀ c, r ≠ SystemExit c)
  ∧ (∀ md f, r = Ok (md, f) →
       ParseFromString L (manifest_bytes input) = Some (md_dam md)
       ∧ md_block_size md = um.block_size (md_dam md)
       ∧ md_signature md = signature_bytes input
       ∧ contents f = input
       ∧ position f = length input `min` (24 + m + s)
       ∧ md_data_offset md = position f
       ∧ (24 + m + s ≤ length input → position f = 24 + m + s)).
Proof.
  intros r m s. subst r. rewrite parse_metadata_eq.
  assert (¬ header_ok input ↔
          length input < 24 ∨ slice 0 4 input ≠ CrAU
          ∨ be_value (slice 4 12 input) ≠ 2%N) as Hnot.
  { unfold header_ok. split.
    - intros H. destruct (decide (length input < 24)); [by left|right].
      destruct (decide (slice 0 4 input = CrAU)); [right|by left].
      intros Hv. apply H. split_and!; [lia|done|done].
    - intros [H|[H|H]] (? & ? & ?); [lia|done|done]. }
  destruct (decide (header_ok input)) as [Hok|Hno].
  - destruct (read_refused L input) as [e0|] eqn:Hrefused.
    { split_and!.
      - split; [by destruct e0|]. intros H%Hnot. done.
      - intros e. split.
        + intros [= ->%read_exn_inj]. done.
        + by intros [_ [= ->]].
      - split; [by destruct e0|]. by intros (_ & ? & _).
      - split; [by intros (? & ? & ?)|]. by intros (_ & ? & _).
      - intros e' [= <-]. eauto.
      - done.
      - done. }
    destruct (ParseFromString L (manifest_bytes input)) as [dam0|] eqn:Hparse.
    + split_and!.
      * split; [done|]. intros H%Hnot. done.
      * intros e. split; [done|]. by intros [_ ?].
      * split; [done|]. by intros (_ & _ & ?).
      * split; [eauto|]. intros _. eauto.
      * done.
      * done.
      * intros md f [= <- <-]. cbn. split_and!; try done. fold m s. lia.
    + split_and!.
      * split; [done|]. intros H%Hnot. done.
      * intros e. split; [by destruct e|]. by intros [_ ?].
      * done.
      * split; [by intros (? & ? & ?)|]. intros (_ & _ & [? ?]). done.
      * intros e' [= <-]. eauto.
      * done.
      * done.
  - split_and!.
    + split; [intros _; by apply Hnot|done].
    + intros e. split; [by destruct e|]. by intros [? _].
    + split; [done|]. by intros [? _].
    + split; [by intros (? & ? & ?)|]. by intros [? _].
    + intros e' [= <-]. eauto.
    + done.
    + done.
Qed.

(** C3 fails as stated: [short_payload] passes the checks on the header,
    its (empty) manifest decodes, and decoding leaves the cursor at 24,
    without the signature byte that the header announces. *)
Lemma parse_metadata_short_payload :
  header_ok short_payload
  ∧ ParseFromString (stand_in default_manifest) (manifest_bytes short_payload)
    = Some default_manifest
  ∧ 24 + manifest_size_of short_payload + signature_size_of short_payload = 25
  ∧ ∃ md, parse_metadata (stand_in default_manifest) (File short_payload 0)
          = Ok (md, File short_payload 24).
Proof.
  split_and!.
  - unfold header_ok. split_and!; [simpl; lia|reflexivity|reflexivity].
  - reflexivity.
  - reflexivity.
  - eexists. reflexivity.
Qed.

(** A header that passes the three checks is no guarantee either that
    decoding gets to the manifest: [huge_manifest] announces 2^63 bytes of
    manifest, a size that the buffered file of a 64-bit CPython refuses by
    an [OverflowError]. *)
Lemma parse_metadata_huge_manifest :
  header_ok huge_manifest
  ∧ be_value (slice 12 20 huge_manifest) = (2 ^ 63)%N
  ∧ parse_metadata (stand_in default_manifest) (File huge_manifest 0)
    = Raise OverflowError.
Proof.
  assert (header_ok huge_manifest) as Hok.
  { unfold header_ok. split_and!; [simpl; lia|reflexivity|reflexivity]. }
  split_and!; [done|reflexivity|].
  rewrite parse_metadata_eq, decide_True by done.
  unfold read_refused.
  change (read_refuses (stand_in default_manifest)
            (be_value (slice 12 20 huge_manifest)))
    with (Some SizeOverflow).
  reflexivity.
Qed.

(** ** How an operation, a task and a run end *)

Lemma exit_status_nonzero (c : Z) :
  exit_code c → exit_status (SystemExit c) ≠ 0%Z.
Proof. by intros [-> | [-> | ->]]. Qed.

Lemma copy_src_extents_no_exit d old_file exts sink c :
  copy_src_extents d old_file exts sink ≠ SystemExit c.
Proof.
  unfold copy_src_extents. revert sink.
  induction exts as [|ext exts IH]; intros sink; simpl; [done|].
  destruct old_file; simpl; [apply IH|done].
Qed.

Lemma data_for_op_exit_code L d fetched out_file old_file c :
  data_for_op L d fetched out_file old_file = SystemExit c → exit_code c.
Proof.
  unfold data_for_op, exit_code, first_extent.
  destruct (um.type (operation fetched)); simpl.
  - destruct (head _); simpl; done.
  - destruct (bz2_decompress _ _); simpl; [|done].
    destruct (head _); simpl; done.
  - destruct (lzma_decompress _ _); simpl; [|done].
    destruct (head _); simpl; done.
  - destruct (diff d); simpl; [|intros [= <-]; auto].
    destruct (head _); simpl; [|done].
    intros H. by apply copy_src_extents_no_exit in H.
  - destruct (diff d); simpl; [|intros [= <-]; auto].
    destruct (head _); simpl; [|done].
    destruct (copy_src_extents _ _ _ _) as [tmp| |] eqn:Hcopy; simpl;
      [|done|by apply copy_src_extents_no_exit in Hcopy].
    destruct (bsdiff4_patch _ _ _); simpl; done.
  - done.
  - intros [= <-]. auto.
Qed.

Lemma apply_operations_exit_code L d ops out_file old_file c :
  (apply_operations L d ops out_file old_file).2 = SystemExit c → exit_code c.
Proof.
  revert out_file. induction ops as [|o ops IH]; intros out_file; simpl; [done|].
  destruct (data_for_op L d o out_file old_file) as [f| |c'] eqn:Hop; simpl.
  - apply IH.
  - done.
  - intros [= <-]. by eapply data_for_op_exit_code.
Qed.

Lemma dump_part_exit_code L d part fs c :
  (dump_part L d part fs).2 = SystemExit c → exit_code c.
Proof.
  unfold dump_part. destruct (diff d).
  - destruct (_ !! image_path (old d) _); simpl; [|done].
    destruct (apply_operations _ _ _ _ _) as [f r] eqn:Happ. simpl.
    intros ->. eapply (apply_operations_exit_code L d). by rewrite Happ.
  - destruct (apply_operations _ _ _ _ _) as [f r] eqn:Happ. simpl.
    intros ->. eapply (apply_operations_exit_code L d). by rewrite Happ.
Qed.

Lemma apply_operations_app L d pre post out_file old_file :
  apply_operations L d (pre ++ post) out_file old_file =
  match apply_operations L d pre out_file old_file with
  | (out_file', Ok _) => apply_operations L d post out_file' old_file
  | stopped => stopped
  end.
Proof.
  revert out_file. induction pre as [|o pre IH]; intros out_file; simpl; [done|].
  destruct (data_for_op L d o out_file old_file); [apply IH|done|done].
Qed.

(** The output file of a task exists once the task is over, however it
    ends, and a task changes no other file. *)
Lemma dump_part_creates L d part fs :
  is_Some ((dump_part L d part fs).1
             !! image_path (out d) (um.partition_name (partition part))).
Proof.
  unfold dump_part.
  destruct (if diff d then _ else _); simpl;
    [destruct (apply_operations _ _ _ _ _); simpl| |];
    rewrite lookup_insert_eq; eauto.
Qed.

Lemma dump_part_frame L d part fs (path : string) :
  path ≠ image_path (out d) (um.partition_name (partition part)) →
  (dump_part L d part fs).1 !! path = fs !! path.
Proof.
  intros Hne. unfold dump_part.
  destruct (if diff d then _ else _); simpl;
    [destruct (apply_operations _ _ _ _ _); simpl| |];
    by rewrite ?lookup_insert_ne by done.
Qed.

Lemma dump_part_preserves L d part fs (path : string) :
  is_Some (fs !! path) → is_Some ((dump_part L d part fs).1 !! path).
Proof.
  intros H.
  destruct (decide (path = image_path (out d)
                             (um.partition_name (partition part)))) as [->|Hne].
  - apply dump_part_creates.
  - by rewrite dump_part_frame.
Qed.

(** ** Paths *)

Lemma string_length_app (s t : string) :
  String.length (s +:+ t) = String.length s + String.length t.
Proof. induction s as [|a s IH]; simpl; [done|by rewrite IH]. Qed.

Lemma string_app_inj_r (s1 s2 t : string) : s1 +:+ t = s2 +:+ t → s1 = s2.
Proof.
  revert s2. induction s1 as [|a s1 IH]; intros [|b s2]; simpl; intros H.
  - done.
  - apply (f_equal String.length) in H.
    rewrite !string_length_app in H. simpl in H. lia.
  - apply (f_equal String.length) in H.
    rewrite !string_length_app in H. simpl in H. lia.
  - injection H as -> H. f_equal. by apply IH.
Qed.

Lemma image_path_inj (dir name1 name2 : string) :
  image_path dir name1 = image_path dir name2 → name1 = name2.
Proof.
  unfold image_path. intros H.
  apply (inj (String.app dir)), (inj (String.app "/")) in H.
  by apply string_app_inj_r in H.
Qed.

(** ** The tasks of a run *)

Lemma run_tasks_acc L d parts fs acc :
  foldl (run_task L d) (fs, acc) parts
  = ((run_tasks L d parts fs).1, acc ++ (run_tasks L d parts fs).2).
Proof.
  unfold run_tasks. revert fs acc.
  induction parts as [|part parts IH]; intros fs acc; simpl.
  - by rewrite app_nil_r.
  - destruct (dump_part L d part fs) as [fs1 r]. simpl.
    rewrite (IH fs1 (acc ++ _)), (IH fs1 [_]). simpl.
    by rewrite <- app_assoc.
Qed.

Lemma run_tasks_cons L d part parts fs :
  run_tasks L d (part :: parts) fs =
  let fs1 := (dump_part L d part fs).1 in
  ((run_tasks L d parts fs1).1,
   (part_name part, (dump_part L d part fs).2) :: (run_tasks L d parts fs1).2).
Proof.
  unfold run_tasks at 1. simpl.
  destruct (dump_part L d part fs) as [fs1 r]. simpl.
  by rewrite run_tasks_acc.
Qed.

Lemma run_tasks_preserves L d parts fs (path : string) :
  is_Some (fs !! path) → is_Some ((run_tasks L d parts fs).1 !! path).
Proof.
  revert fs. induction parts as [|part parts IH]; intros fs H; [done|].
  rewrite run_tasks_cons. simpl. by apply IH, dump_part_preserves.
Qed.

Lemma run_tasks_frame L d parts fs (path : string) :
  (∀ part, part ∈ parts → path ≠ image_path (out d) (part_name part)) →
  (run_tasks L d parts fs).1 !! path = fs !! path.
Proof.
  revert fs. induction parts as [|part parts IH]; intros fs H; [done|].
  rewrite run_tasks_cons. simpl. rewrite IH.
  - apply dump_part_frame, H. by left.
  - intros p Hp. apply H. by right.
Qed.

(** Every task of a run is run: the i-th future is the outcome of
    [dump_part] for the i-th partition, on the file system that the tasks
    before it leave. Its output file exists when the run is over, and when
    no later partition has the same name it holds what this task left in
    it. *)
Lemma run_tasks_lookup L d parts fs i part :
  parts !! i = Some part →
  let fs_i := (run_tasks L d (take i parts) fs).1 in
  (run_tasks L d parts fs).2 !! i
    = Some (part_name part, (dump_part L d part fs_i).2)
  ∧ is_Some ((run_tasks L d parts fs).1
               !! image_path (out d) (part_name part))
  ∧ (part_name part ∉ map part_name (drop (S i) parts) →
     (run_tasks L d parts fs).1 !! image_path (out d) (part_name part)
     = (dump_part L d part fs_i).1 !! image_path (out d) (part_name part)).
Proof.
  revert fs i. induction parts as [|p parts IH]; intros fs i Hi; [done|].
  rewrite run_tasks_cons. destruct i as [|i]; simpl in *.
  - inversion Hi; subst. split_and!; [done| |].
    + apply run_tasks_preserves, dump_part_creates.
    + intros Hnot. rewrite drop_0 in Hnot. apply run_tasks_frame.
      intros p' Hp' Heq%image_path_inj. apply Hnot.
      rewrite Heq. apply list_elem_of_fmap. eauto.
  - rewrite run_tasks_cons. simpl. apply IH. exact Hi.
Qed.

(** ** The trace of a run *)

Lemma select_images_spec d names acc w :
  ∃ prints,
    foldl (select_image d) (acc, w) names
    = (acc ++ concat (map (λ image,
                option_list
                  (find (λ dam_part,
                          bool_decide (um.partition_name dam_part = image))
                        (um.partitions (dam d)))) names),
       World (payloadfile w) (files w) (trace w ++ prints))
    ∧ Forall is_print prints.
Proof.
  revert acc w. induction names as [|image names IH]; intros acc w; simpl.
  - exists []. rewrite !app_nil_r. by destruct w.
  - destruct (find _ _) as [p|]; simpl.
    + destruct (IH (acc ++ [p]) w) as (prints & -> & Hp).
      exists prints. by rewrite <- app_assoc.
    + destruct (IH acc (emit (Print (PartitionNotFound image)) w))
        as (prints & -> & Hp).
      exists (Print (PartitionNotFound image) :: prints). simpl.
      rewrite <- app_assoc. split; [done|]. by constructor.
Qed.

Lemma select_partitions_spec d w :
  ∃ prints,
    select_partitions d w
    = (selected_partitions d,
       World (payloadfile w) (files w) (trace w ++ prints))
    ∧ Forall is_print prints.
Proof.
  unfold select_partitions, selected_partitions. destruct (images d).
  - apply (select_images_spec d l [] w).
  - exists []. rewrite app_nil_r. by destruct w.
Qed.

Lemma fetch_ops_spec d ops acc w :
  ∃ pos,
    foldl (fetch_op d) (acc, w) ops
    = (acc ++ map (fetch_data d (contents (payloadfile w))) ops,
       World (File (contents (payloadfile w)) pos) (files w)
         (trace w ++ fetch_events d ops)).
Proof.
  revert acc w. induction ops as [|o ops IH]; intros acc w; simpl.
  - exists (position (payloadfile w)). unfold fetch_events. simpl.
    rewrite !app_nil_r. by destruct w as [[? ?] ? ?].
  - unfold payload_read, payload_seek, emit. simpl.
    match goal with |- context [foldl _ (?a, ?w') _] =>
      destruct (IH a w') as (pos & ->) end.
    exists pos. simpl. by rewrite <- !app_assoc.
Qed.

Lemma prefetch_acc d selected acc w :
  ∃ pos,
    foldl (fetch_part d) (acc, w) selected
    = (acc ++ map (fetch_partition d (contents (payloadfile w))) selected,
       World (File (contents (payloadfile w)) pos) (files w)
         (trace w ++ fetch_events d (concat (map um.operations selected)))).
Proof.
  revert acc w. induction selected as [|p selected IH]; intros acc w; simpl.
  - exists (position (payloadfile w)). unfold fetch_events. simpl.
    rewrite !app_nil_r. by destruct w as [[? ?] ? ?].
  - destruct (fetch_ops_spec d (um.operations p) [] w) as (pos1 & ->). simpl.
    match goal with |- context [foldl _ (?a, ?w') _] =>
      destruct (IH a w') as (pos & ->) end.
    exists pos. simpl. rewrite <- !app_assoc. simpl.
    unfold fetch_events. by rewrite map_app, concat_app.
Qed.

Lemma prefetch_spec d selected w :
  ∃ pos,
    prefetch d selected w
    = (map (fetch_partition d (contents (payloadfile w))) selected,
       World (File (contents (payloadfile w)) pos) (files w)
         (trace w ++ fetch_events d (concat (map um.operations selected)))).
Proof. apply (prefetch_acc d selected [] w). Qed.

Lemma submit_all_spec parts w :
  submit_all parts w
  = World (payloadfile w) (files w)
      (trace w ++ map (λ part, Submit (part_name part)) parts).
Proof.
  unfold submit_all. revert w.
  induction parts as [|p parts IH]; intros w; simpl.
  - rewrite app_nil_r. by destruct w.
  - rewrite IH. unfold emit. simpl. by rewrite <- app_assoc.
Qed.

Lemma collect_spec done w :
  ∃ seen,
    (collect done w).1
    = World (payloadfile w) (files w) (trace w ++ concat (map report seen))
    ∧ seen `prefix_of` done.
Proof.
  revert w. induction done as [|[name r] done IH]; intros w; simpl.
  - exists []. simpl. rewrite app_nil_r. by destruct w.
  - destruct r as [[]|exc|c].
    + destruct (IH w) as (seen & -> & Hpre).
      exists ((name, Ok ()) :: seen). split; [done|]. by apply prefix_cons.
    + destruct (IH (emit (Print (ProcessingException name exc)) w))
        as (seen & -> & Hpre).
      exists ((name, Raise exc) :: seen). simpl. rewrite <- app_assoc.
      split; [done|]. by apply prefix_cons.
    + exists []. simpl. rewrite app_nil_r. split; [by destruct w|].
      apply prefix_nil.
Qed.

Lemma collect_no_exit done w :
  (∀ name c, (name, SystemExit c) ∉ done) →
  collect done w
  = (World (payloadfile w) (files w) (trace w ++ concat (map report done)),
     Ok ()).
Proof.
  revert w. induction done as [|[name r] done IH]; intros w Hno; simpl.
  - rewrite app_nil_r. by destruct w.
  - assert (∀ name c, (name, SystemExit c) ∉ done) as Hno'
      by (intros n c Hin; apply (Hno n c); by right).
    destruct r as [[]|exc|c].
    + by rewrite IH.
    + rewrite IH by done. simpl. by rewrite <- app_assoc.
    + exfalso. apply (Hno name c). by left.
Qed.

Lemma collect_exit done w name c :
  (name, SystemExit c) ∈ done →
  ∃ name' c', (collect done w).2 = SystemExit c'
              ∧ (name', SystemExit c') ∈ done.
Proof.
  revert w. induction done as [|[n r] done IH]; intros w Hin.
  - by apply elem_of_nil in Hin.
  - simpl. destruct r as [[]|exc|c0].
    + apply elem_of_cons in Hin as [[=]|Hin].
      destruct (IH w Hin) as (n' & c' & ? & ?).
      exists n', c'. split; [done|by right].
    + apply elem_of_cons in Hin as [[=]|Hin].
      destruct (IH (emit (Print (ProcessingException n exc)) w) Hin)
        as (n' & c' & ? & ?).
      exists n', c'. split; [done|by right].
    + exists n, c0. split; [done|by left].
Qed.

(** The run up to the pool: the trace holds the messages of the selection,
    then the seek and the read for every operation, then the close of the
    payload file. *)
Lemma run_prefetch L d w :
  selected_partitions d ≠ [] →
  ∃ prints pos,
    Forall is_print prints
    ∧ run L d w
      = multiprocess_partitions L d (fetched_partitions d w)
          (World (File (contents (payloadfile w)) pos) (files w)
             (trace w ++ prints
                ++ fetch_events d
                     (concat (map um.operations (selected_partitions d)))
                ++ [PayloadClose])).
Proof.
  intros Hsel. unfold run.
  destruct (select_partitions_spec d w) as (prints & -> & Hprints).
  destruct (selected_partitions d) as [|p sel] eqn:Hs; [done|].
  rewrite <- Hs.
  match goal with |- context [prefetch d _ ?w1] =>
    destruct (prefetch_spec d (selected_partitions d) w1) as (pos & ->) end.
  exists prints, pos. split; [done|].
  unfold emit, fetched_partitions. cbn [payloadfile files trace contents].
  by rewrite <- !app_assoc.
Qed.

(** The pool: the submissions, then the loop over the completed futures,
    which works on the file system that the tasks leave. *)
Lemma multiprocess_partitions_unfold L d parts w :
  (0 < workers d)%Z →
  multiprocess_partitions L d parts w
  = collect (as_completed L (run_tasks L d parts (files w)).2)
      (World (payloadfile w) (run_tasks L d parts (files w)).1
         (trace w ++ map (λ part, Submit (part_name part)) parts)).
Proof.
  intros Hworkers. unfold multiprocess_partitions.
  destruct (Z.leb_spec (workers d) 0) as [?|_]; [lia|].
  rewrite submit_all_spec. cbn [payloadfile files trace].
  by destruct (run_tasks L d parts (files w)) as [fs futures].
Qed.

(** The run with its pool: then come the submissions, and the loop over
    the completed futures works on the file system that the tasks leave. *)
Lemma run_unfold L d w :
  (0 < workers d)%Z →
  selected_partitions d ≠ [] →
  ∃ prints pos,
    Forall is_print prints
    ∧ run L d w
      = collect
          (as_completed L (run_tasks L d (fetched_partitions d w) (files w)).2)
          (World (File (contents (payloadfile w)) pos)
             (run_tasks L d (fetched_partitions d w) (files w)).1
             (trace w ++ prints
                ++ fetch_events d
                     (concat (map um.operations (selected_partitions d)))
                ++ [PayloadClose]
                ++ map (λ part, Submit (part_name part))
                       (fetched_partitions d w))).
Proof.
  intros Hworkers Hsel.
  destruct (run_prefetch L d w Hsel) as (prints & pos & Hprints & ->).
  exists prints, pos. split; [done|].
  rewrite multiprocess_partitions_unfold by done.
  cbn [payloadfile files trace]. by rewrite <- !app_assoc.
Qed.

Lemma run_tasks_exit_codes L d parts fs name c :
  (name, SystemExit c) ∈ (run_tasks L d parts fs).2 → exit_code c.
Proof.
  revert fs. induction parts as [|p parts IH]; intros fs.
  - intros H. by apply elem_of_nil in H.
  - rewrite run_tasks_cons. simpl. intros [Heq|Hin]%elem_of_cons.
    + injection Heq as _ Heq. eapply dump_part_exit_code. by rewrite <- Heq.
    + by eapply IH.
Qed.

(** A run one of whose tasks ends in a [SystemExit] ends in a [SystemExit]
    with one of the codes of the source, so that its exit status is not
    0. *)
Lemma run_exit L d w name c :
  (0 < workers d)%Z →
  (name, SystemExit c) ∈ (run_tasks L d (fetched_partitions d w) (files w)).2 →
  ∃ c', (run L d w).2 = SystemExit c' ∧ exit_code c'
        ∧ exit_status (run L d w).2 ≠ 0%Z.
Proof.
  intros Hworkers Hin.
  assert (selected_partitions d ≠ []) as Hsel.
  { intros Hnil. unfold fetched_partitions in Hin. rewrite Hnil in Hin.
    by apply elem_of_nil in Hin. }
  destruct (run_unfold L d w Hworkers Hsel) as (prints & pos & _ & ->).
  match goal with |- context [collect ?done ?w1] =>
    destruct (collect_exit done w1 name c) as (n' & c' & Hr & Hin') end.
  { by rewrite as_completed_perm. }
  rewrite as_completed_perm in Hin'.
  apply run_tasks_exit_codes in Hin'.
  exists c'. rewrite Hr. split_and!; [done|done|by apply exit_status_nonzero].
Qed.

Lemma run_files L d w :
  (0 < workers d)%Z →
  selected_partitions d ≠ [] →
  files (run L d w).1 = (run_tasks L d (fetched_partitions d w) (files w)).1.
Proof.
  intros Hworkers Hsel.
  destruct (run_unfold L d w Hworkers Hsel) as (prints & pos & _ & ->).
  match goal with |- context [collect ?done ?w1] =>
    destruct (collect_spec done w1) as (seen & -> & _) end.
  done.
Qed.

(** [small_run] is what [main] does with the payload that [payload_head]
    starts. *)
Lemma main_small_run diff images dam data :
  main (stand_in dam) (small_args diff images)
       (File (payload_head ++ data) 0) ∅
  = small_run diff images dam data.
Proof. reflexivity. Qed.

(** ** SOURCE_COPY and SOURCE_BSDIFF outside differential mode *)





(** ** A task that raises *)

Lemma elem_of_concat {A} (x : A) (ls : list (list A)) :
  x ∈ concat ls ↔ ∃ l, x ∈ l ∧ l ∈ ls.
Proof.
  induction ls as [|l ls IH]; simpl.
  - split; [by intros ?%elem_of_nil|by intros (? & _ & ?%elem_of_nil)].
  - rewrite elem_of_app, IH. split.
    + intros [H|(l' & ? & ?)]; [exists l; split; [done|by left]|].
      exists l'. split; [done|by right].
    + intros (l' & Hx & [->|Hl]%elem_of_cons); [by left|right; eauto].
Qed.

Lemma Forall_is_print_reports (done : list future) :
  Forall is_print (concat (map report done)).
Proof.
  apply Forall_forall. intros e [l [He Hl]]%elem_of_concat.
  apply list_elem_of_fmap in Hl as ([n [[]|x|c]] & -> & _); simpl in He;
    try by apply elem_of_nil in He.
  by apply list_elem_of_singleton in He as ->.
Qed.

(** C6, as the code has it. In a run one of whose tasks raises an
    exception: the file system at the end is the one that all the tasks
    leave; every partition has its future, which is the outcome of its own
    [dump_part] on the file system that the tasks before it leave, and its
    output file, which holds what its task left in it when no later
    partition has its name; the run prints the exception and returns, with
    exit status 0, when no task ends in a [SystemExit], and its exit status
    is not 0 when one does. *)
Theorem task_exception_reported L d w name exc :
  let parts := fetched_partitions d w in
  let fs' := (run_tasks L d parts (files w)).1 in
  let futures := (run_tasks L d parts (files w)).2 in
  (0 < workers d)%Z →
  (name, Raise exc) ∈ futures →
  files (run L d w).1 = fs'
  ∧ (∀ i part, parts !! i = Some part →
       let fs_i := (run_tasks L d (take i parts) (files w)).1 in
       futures !! i = Some (part_name part, (dump_part L d part fs_i).2)
       ∧ is_Some (fs' !! image_path (out d) (part_name part))
       ∧ (part_name part ∉ map part_name (drop (S i) parts) →
          fs' !! image_path (out d) (part_name part)
          = (dump_part L d part fs_i).1
              !! image_path (out d) (part_name part)))
  ∧ ((∀ n c, (n, SystemExit c) ∉ futures) →
       (run L d w).2 = Ok ()
       ∧ exit_status (run L d w).2 = 0%Z
       ∧ Print (ProcessingException name exc) ∈ trace (run L d w).1)
  ∧ (∀ n c, (n, SystemExit c) ∈ futures →
       exit_status (run L d w).2 ≠ 0%Z).
Proof.
  intros parts fs' futures Hworkers Hin.
  assert (selected_partitions d ≠ []) as Hsel.
  { intros Hnil. subst futures parts. unfold fetched_partitions in Hin.
    rewrite Hnil in Hin. by apply elem_of_nil in Hin. }
  split_and!.
  - by apply run_files.
  - intros i part Hi. apply run_tasks_lookup. exact Hi.
  - intros Hno.
    destruct (run_unfold L d w Hworkers Hsel) as (prints & pos & _ & ->).
    rewrite collect_no_exit.
    + split_and!; [done|done|]. cbn [fst trace].
      apply elem_of_app. right. apply elem_of_concat.
      exists [Print (ProcessingException name exc)]. split; [by left|].
      apply list_elem_of_fmap. exists (name, Raise exc). split; [done|].
      by rewrite as_completed_perm.
    + intros n c. rewrite as_completed_perm. apply Hno.
  - intros n c Hexit.
    by destruct (run_exit L d w n c Hworkers Hexit) as (? & _ & _ & ?).
Qed.

(** C6 on [boot_empty] in differential mode, without old images. *)
Lemma task_exception_reported_witness :
  (small_run true None boot_empty []).2 = Ok ()
  ∧ exit_status (small_run true None boot_empty []).2 = 0%Z
  ∧ Print (ProcessingException "boot" FileNotFoundError)
    ∈ trace (small_run true None boot_empty []).1.
Proof.
  destruct (task_exception_reported (stand_in boot_empty)
              (small_dumper true None boot_empty) (fresh_world [])
              "boot" FileNotFoundError)
    as (_ & _ & Hreport & _).
  - reflexivity.
  - left.
  - apply Hreport.
    intros n c [Heq|Hin]%elem_of_cons; [discriminate Heq|].
    by apply elem_of_nil in Hin.
Defined.

(** C6 fails as stated: in differential mode without an old [boot.img],
    the task of [boot] raises [FileNotFoundError]; the run prints it, and
    returns, so that the exit status of the process is 0. *)
Lemma task_exception_exit_status_zero :
  (run_tasks (stand_in boot_empty) (small_dumper true None boot_empty)
     (fetched_partitions (small_dumper true None boot_empty) (fresh_world []))
     (files (fresh_world []))).2
    = [("boot", Raise FileNotFoundError)]
  ∧ trace (small_run true None boot_empty []).1
    = [PayloadClose; Submit "boot";
       Print (ProcessingException "boot" FileNotFoundError)]
  ∧ exit_status (small_run true None boot_empty []).2 = 0%Z.
Proof. split_and!; reflexivity. Qed.

(** ** The payload file *)

(** C7, as the code has it: in a run that has a partition to work on, the
    payload file is sought and read once for every operation of every
    selected partition, the partitions in the order in which they were
    selected (that of the manifest when no names are given, that of the
    names otherwise) and the operations of a partition in the order of the
    manifest; then the payload file is closed. Whatever the run does from
    then on, which is to submit the tasks and to print what they raised,
    leaves the payload file alone. *)
Theorem payload_read_before_tasks L d w :
  selected_partitions d ≠ [] →
  ∃ prints rest pos,
    run L d w
    = multiprocess_partitions L d (fetched_partitions d w)
        (World (File (contents (payloadfile w)) pos) (files w)
           (trace w ++ prints
              ++ fetch_events d
                   (concat (map um.operations (selected_partitions d)))
              ++ [PayloadClose]))
    ∧ trace (run L d w).1
      = trace w ++ prints
          ++ fetch_events d
               (concat (map um.operations (selected_partitions d)))
          ++ [PayloadClose] ++ rest
    ∧ Forall is_print prints
    ∧ Forall (λ e, is_payload_event e = false) rest
    ∧ ((0 < workers d)%Z →
       ∃ reports,
         rest = map (λ p, Submit (um.partition_name p)) (selected_partitions d)
                  ++ reports
         ∧ Forall is_print reports)
    ∧ (images d = None → selected_partitions d = um.partitions (dam d)).
Proof.
  intros Hsel.
  assert (images d = None → selected_partitions d = um.partitions (dam d))
    as Hall by (intros Hnone; unfold selected_partitions; by rewrite Hnone).
  destruct (run_prefetch L d w Hsel) as (prints & pos & Hprints & Hrun).
  destruct (Z.leb_spec (workers d) 0) as [Hw|Hw].
  - exists prints, [], pos. split; [exact Hrun|]. rewrite Hrun.
    unfold multiprocess_partitions.
    destruct (Z.leb_spec (workers d) 0) as [_|?]; [|lia].
    cbn [fst trace].
    split_and!; [done|done|done|lia|done].
  - match type of Hrun with _ = multiprocess_partitions _ _ ?parts ?w1 =>
      pose proof (multiprocess_partitions_unfold L d parts w1 Hw) as Hpool
    end.
    match type of Hpool with _ = collect ?done ?w2 =>
      destruct (collect_spec done w2) as (seen & Hseen & _)
    end.
    exists prints,
      (map (λ p, Submit (um.partition_name p)) (selected_partitions d)
         ++ concat (map report seen)), pos.
    split; [exact Hrun|]. rewrite Hrun, Hpool, Hseen.
    cbn [fst trace].
    assert (map (λ part, Submit (part_name part)) (fetched_partitions d w)
            = map (λ p, Submit (um.partition_name p)) (selected_partitions d))
      as -> by (unfold fetched_partitions; by rewrite map_map).
    split_and!.
    + by rewrite <- !app_assoc.
    + done.
    + apply Forall_app. split.
      * apply Forall_forall. by intros e (p & -> & _)%list_elem_of_fmap.
      * eapply Forall_impl; [apply Forall_is_print_reports|].
        by intros [].
    + intros _. eexists. split; [done|]. apply Forall_is_print_reports.
    + done.
Qed.

(** C7 on [a_then_b], all partitions selected. *)
Lemma payload_read_before_tasks_witness :
  ∃ prints rest,
    trace (small_run false None a_then_b [Byte.x01; Byte.x02]).1
    = prints ++ [PayloadSeek 25; PayloadRead 1; PayloadSeek 26; PayloadRead 1]
        ++ [PayloadClose] ++ rest
    ∧ Forall (λ e, is_payload_event e = false) rest.
Proof.
  destruct (payload_read_before_tasks (stand_in a_then_b)
              (small_dumper false None a_then_b)
              (fresh_world [Byte.x01; Byte.x02]))
    as (prints & rest & pos & _ & Htrace & _ & Hrest & _).
  - discriminate.
  - exists prints, rest. split; [exact Htrace|exact Hrest].
Defined.

(** C7 fails as stated: with the names [b, a], the payload bytes of [b]'s
    operation (at offset 1 of the data region) are read before those of [a]'s (at
    offset 0),
    which comes first in the manifest. *)
Lemma payload_read_in_selection_order :
  filter (λ e, is_payload_event e = true)
    (trace (small_run false (Some ["b"; "a"]) a_then_b
              [Byte.x01; Byte.x02]).1)
  = [PayloadSeek 26; PayloadRead 1; PayloadSeek 25; PayloadRead 1; PayloadClose]
  ∧ fetch_events (small_dumper false (Some ["b"; "a"]) a_then_b)
      (concat (map um.operations (um.partitions a_then_b)))
    = [PayloadSeek 25; PayloadRead 1; PayloadSeek 26; PayloadRead 1].
Proof. split; reflexivity. Qed.

(** * Further properties *)

(** ** The integers of the header *)

Lemma be_value_snoc (x : bytes) (b : byte) :
  be_value (x ++ [b]) = (be_value x * 256 + Byte.to_N b)%N.
Proof. unfold be_value. by rewrite foldl_app. Qed.

Lemma byte_to_N_lt (b : byte) : (Byte.to_N b < 256)%N.
Proof. pose proof (Byte.to_N_bounded b). lia. Qed.

Lemma byte_to_N_inj (a b : byte) : Byte.to_N a = Byte.to_N b → a = b.
Proof.
  intros H. apply (f_equal Byte.of_N) in H.
  rewrite !Byte.of_to_N in H. by injection H.
Qed.

Lemma be_value_lt (x : bytes) : (be_value x < 256 ^ N.of_nat (length x))%N.
Proof.
  induction x as [|b x IH] using rev_ind; [reflexivity|].
  rewrite be_value_snoc, length_app. simpl.
  replace (N.of_nat (length x + 1)) with (N.succ (N.of_nat (length x))) by lia.
  rewrite N.pow_succ_r'. pose proof (byte_to_N_lt b).
  set (P := (256 ^ N.of_nat (length x))%N) in *. lia.
Qed.

Lemma be_value_inj (x y : bytes) :
  length x = length y → be_value x = be_value y → x = y.
Proof.
  revert y. induction x as [|a x IH] using rev_ind; intros y Hlen Hval.
  - destruct y; [done|simpl in Hlen; lia].
  - destruct y as [|b y _] using rev_ind;
      [rewrite length_app in Hlen; simpl in Hlen; lia|].
    rewrite !length_app in Hlen. simpl in Hlen.
    rewrite !be_value_snoc in Hval.
    pose proof (byte_to_N_lt a). pose proof (byte_to_N_lt b).
    assert (be_value x = be_value y ∧ Byte.to_N a = Byte.to_N b) as [Hx Hb]
      by lia.
    rewrite (IH y) by (done || lia). by rewrite (byte_to_N_inj a b Hb).
Qed.

(** X1: [u64] decodes the byte strings of length 8, and those only, to a
    number below 2^64, and [u32] those of length 4 to a number below 2^32;
    a string of another length raises [struct.error]. *)
Theorem u64_u32_range (x : bytes) :
  (u64 x = Raise StructError ↔ length x ≠ 8)
  ∧ (∀ n, u64 x = Ok n → length x = 8 ∧ (n < 2 ^ 64)%N)
  ∧ (u32 x = Raise StructError ↔ length x ≠ 4)
  ∧ (∀ n, u32 x = Ok n → length x = 4 ∧ (n < 2 ^ 32)%N).
Proof.
  unfold u64, u32. pose proof (be_value_lt x) as Hlt. split_and!.
  - case_decide; split; done.
  - intros n. case_decide as Hl; [|done]. intros [= <-]. split; [done|].
    rewrite Hl in Hlt. exact Hlt.
  - case_decide; split; done.
  - intros n. case_decide as Hl; [|done]. intros [= <-]. split; [done|].
    rewrite Hl in Hlt. exact Hlt.
Qed.

(** X2: the decoders lose nothing: two byte strings that [u64] (or [u32])
    decodes to the same number are the same string. *)
Theorem u64_u32_injective (x y : bytes) (n : N) :
  (u64 x = Ok n → u64 y = Ok n → x = y)
  ∧ (u32 x = Ok n → u32 y = Ok n → x = y).
Proof.
  unfold u64, u32. split.
  - repeat case_decide; try done. intros [= <-] [= Hy].
    apply be_value_inj; [lia|done].
  - repeat case_decide; try done. intros [= <-] [= Hy].
    apply be_value_inj; [lia|done].
Qed.

(** ** Contiguous extents *)

Lemma in_extents_cons d ext exts i :
  in_extents d (ext :: exts) i ↔ in_extent d ext i ∨ in_extents d exts i.
Proof.
  unfold in_extents. split.
  - intros (e & [->|He]%elem_of_cons & Hi); [by left|right; eauto].
  - intros [Hi|(e & He & Hi)].
    + exists ext. split; [by left|done].
    + exists e. split; [by right|done].
Qed.

Lemma verify_contiguous_loop_tiles d exts blocks i :
  verify_contiguous_loop blocks exts = true →
  in_extents d exts i ↔
  in_bytes d blocks ≤ i < in_bytes d (blocks + total_blocks exts).
Proof.
  revert blocks. induction exts as [|ext exts IH]; intros blocks; simpl.
  - intros _. unfold total_blocks. simpl. rewrite N.add_0_r. split; [|lia].
    intros (e & He & _). by apply elem_of_nil in He.
  - destruct (N.eqb_spec (um.start_block ext) blocks) as [Heq|Hne];
      simpl; [|done].
    intros Hrest. rewrite in_extents_cons, (IH _ Hrest).
    unfold in_extent. rewrite Heq.
    unfold total_blocks. simpl. fold (total_blocks exts).
    rewrite !in_bytes_add. lia.
Qed.

(** X3: extents that [verify_contiguous] accepts tile the image from its
    start: an offset lies in the byte range of one of them exactly when it
    is below their total size in bytes. *)
Theorem verify_contiguous_tiles d exts :
  verify_contiguous exts = true →
  ∀ i, in_extents d exts i ↔ i < in_bytes d (total_blocks exts).
Proof.
  intros H i. unfold verify_contiguous in H.
  rewrite (verify_contiguous_loop_tiles d exts 0 i H).
  rewrite N.add_0_l. unfold in_bytes at 1. simpl. lia.
Qed.

(** X3 on [from_block0], with 2-byte blocks, at offset 4. *)
Lemma verify_contiguous_tiles_witness :
  in_extents (small_dumper false None no_partitions) from_block0 4 ↔ 4 < 6.
Proof.
  apply (verify_contiguous_tiles (small_dumper false None no_partitions)
           from_block0).
  reflexivity.
Defined.

(** ** Operations as writes *)

Lemma file_eq (f g : file) :
  contents f = contents g → position f = position g → f = g.
Proof. destruct f, g. simpl. congruence. Qed.

(** One write, byte by byte. *)
Lemma lookup_write (f : file) (data : bytes) (i : nat) :
  contents (write f data) !! i =
  if decide (position f ≤ i < position f + length data)
  then data !! (i - position f)
  else match contents f !! i with
       | Some b => Some b
       | None => if decide (data ≠ [] ∧ i < position f) then Some x00 else None
       end.
Proof.
  case_decide as Hin; [by apply lookup_write_inside|].
  destruct (contents f !! i) as [b|] eqn:Hi.
  - rewrite lookup_write_outside; [done|lia|]. by eapply lookup_lt_Some.
  - apply lookup_ge_None in Hi.
    destruct (decide (data = [])) as [->|Hne].
    + simpl. by apply lookup_ge_None.
    + rewrite contents_write by done. case_decide as Hpad.
      * rewrite lookup_app_r by (rewrite length_take; lia).
        rewrite length_take, lookup_app_l by (rewrite length_replicate; lia).
        apply lookup_replicate_2. lia.
      * apply lookup_ge_None.
        rewrite !length_app, length_take, length_replicate, length_drop.
        assert (position f + length data ≤ i) by (apply not_and_l in Hpad as [?|?]; [done|lia]).
        lia.
Qed.

Lemma padded_cons (w : nat * bytes) ws i :
  padded (w :: ws) i
  = bool_decide (w.2 ≠ [] ∧ i < w.1) || padded ws i.
Proof.
  unfold padded. rewrite <- bool_decide_or.
  apply bool_decide_ext, Exists_cons.
Qed.

(** The file after a list of writes, byte by byte: the last write that
    covers an offset decides; an offset that no write covers keeps its
    byte, or is zero padding when the file ended before it and a write
    went beyond it. *)
Lemma lookup_apply_writes (f : file) ws i :
  contents (apply_writes f ws) !! i = written (contents f) ws i.
Proof.
  unfold apply_writes, written. revert f.
  induction ws as [|w ws IH]; intros f; simpl.
  - by destruct (contents f !! i).
  - rewrite IH. destruct (last_cover ws i) as [b|]; [done|].
    unfold apply_write. rewrite lookup_write, padded_cons.
    cbn [seek position contents]. unfold covers.
    destruct (decide (w.1 ≤ i < w.1 + length w.2)) as [Hin|Hout].
    + destruct (w.2 !! (i - w.1)) as [b|] eqn:Hb; [done|].
      apply lookup_ge_None in Hb. lia.
    + destruct (contents f !! i) as [b|]; [done|].
      case_decide as Hpad.
      * by rewrite bool_decide_true.
      * by rewrite bool_decide_false.
Qed.

Lemma apply_writes_app (f : file) ws ws' :
  apply_writes f (ws ++ ws') = apply_writes (apply_writes f ws) ws'.
Proof. apply foldl_app. Qed.

Lemma written_ext (c c' : bytes) ws :
  c = c' → ∀ i, written c ws i = written c' ws i.
Proof. by intros ->. Qed.

Lemma copy_src_extents_gathered d old_file exts sink :
  copy_src_extents d old_file exts sink
  = (old_data ←r gathered d old_file exts; Ok (write sink old_data)).
Proof.
  destruct exts as [|ext exts]; [done|].
  destruct old_file as [image|]; [|done].
  apply copy_src_extents_gather.
Qed.

Lemma scatter_from_writes d buffer n exts f :
  scatter_from d buffer n exts f
  = apply_writes f (scatter_writes d buffer n exts).
Proof.
  revert n f. induction exts as [|ext exts IH]; intros n f; simpl; [done|].
  by rewrite IH.
Qed.

Lemma zero_loop_writes d exts f :
  foldl (zero_step d) f exts = apply_writes f (zero_writes d exts).
Proof.
  revert f. induction exts as [|ext exts IH]; intros f; simpl; [done|].
  by rewrite IH.
Qed.

(** An operation is its writes: [data_for_op] fails as [op_writes] does,
    and otherwise makes the writes that [op_writes] lists. *)
Lemma data_for_op_writes L d fetched out_file old_file :
  data_for_op L d fetched out_file old_file
  = (ws ←r op_writes L d fetched old_file; Ok (apply_writes out_file ws)).
Proof.
  unfold data_for_op, op_writes.
  destruct (um.type (operation fetched)); simpl.
  - destruct (first_extent _); done.
  - destruct (or_raise _ _); simpl; [|done|done].
    destruct (first_extent _); done.
  - destruct (or_raise _ _); simpl; [|done|done].
    destruct (first_extent _); done.
  - destruct (diff d); simpl; [|done].
    destruct (first_extent _); simpl; [|done|done].
    rewrite copy_src_extents_gathered.
    destruct (gathered _ _ _); done.
  - destruct (diff d); simpl; [|done].
    destruct (first_extent _) as [ext| |] eqn:Hfirst; simpl; [|done|done].
    rewrite copy_src_extents_gathered.
    destruct (gathered _ _ _) as [old_data| |]; simpl; [|done|done].
    rewrite write_empty_file. cbn. rewrite drop_0.
    destruct (or_raise _ _) as [patched| |]; simpl; [|done|done].
    rewrite scatter_scatter_from, <- scatter_from_writes.
    assert (contents (write (seek (File old_data (length old_data)) 0) patched)
            = patched ++ drop (length patched) old_data) as ->.
    { destruct (decide (patched = [])) as [->|Hne]; [done|].
      rewrite contents_write by done. cbn.
      by rewrite take_0, Nat.sub_0_l. }
    destruct (um.dst_extents (operation fetched)); [done|]. done.
  - by rewrite zero_loop_writes.
  - done.
Qed.

Lemma apply_operations_writes L d ops out_file old_file :
  apply_operations L d ops out_file old_file
  = (apply_writes out_file (ops_writes L d ops old_file).1,
     (ops_writes L d ops old_file).2).
Proof.
  revert out_file. induction ops as [|o ops IH]; intros out_file; simpl;
    [done|].
  rewrite data_for_op_writes.
  destruct (op_writes L d o old_file) as [ws| |]; simpl; [|done|done].
  rewrite IH. destruct (ops_writes L d ops old_file) as [ws' r]. simpl.
  by rewrite apply_writes_app.
Qed.

(** X4: after the operations of a partition, up to the first that fails,
    every byte of the output file is the byte put there by the last write
    that covers its offset; an offset that no write covers keeps its byte,
    or holds 0x00 when the file ended before it and a write went beyond
    it. How the loop ends does not depend on the output file. *)
Theorem operations_last_write_wins L d ops out_file old_file :
  let ws := (ops_writes L d ops old_file).1 in
  (∀ i, contents (apply_operations L d ops out_file old_file).1 !! i
        = written (contents out_file) ws i)
  ∧ (apply_operations L d ops out_file old_file).2
    = (ops_writes L d ops old_file).2.
Proof.
  intros ws. rewrite apply_operations_writes. simpl. split; [|done].
  intros i. apply lookup_apply_writes.
Qed.

Lemma written_again (f : file) ws i :
  written (contents (apply_writes f ws)) ws i
  = contents (apply_writes f ws) !! i.
Proof.
  unfold written at 1. rewrite lookup_apply_writes. unfold written.
  destruct (last_cover ws i); [done|].
  destruct (contents f !! i); [done|].
  by destruct (padded ws i).
Qed.

(** X5: every operation can be applied again: an operation that succeeds
    succeeds again on the file it has left, and leaves the same bytes. *)
Theorem data_for_op_idempotent L d fetched out_file old_file out_file' :
  data_for_op L d fetched out_file old_file = Ok out_file' →
  ∃ out_file'',
    data_for_op L d fetched out_file' old_file = Ok out_file''
    ∧ contents out_file'' = contents out_file'.
Proof.
  rewrite !data_for_op_writes.
  destruct (op_writes L d fetched old_file) as [ws| |]; simpl; [|done|done].
  intros [= <-]. eexists. split; [done|].
  apply list_eq. intros i. rewrite lookup_apply_writes. apply written_again.
Qed.

(** X5 on [replace_block1_long]. *)
Lemma data_for_op_idempotent_witness :
  ∃ out_file'',
    data_for_op (stand_in no_partitions)
      (small_dumper false None no_partitions) replace_block1_long
      (File [x00; x00; Byte.x0a; Byte.x0b; Byte.x0c] 5) None = Ok out_file''
    ∧ contents out_file'' = [x00; x00; Byte.x0a; Byte.x0b; Byte.x0c].
Proof.
  apply (data_for_op_idempotent (stand_in no_partitions)
           (small_dumper false None no_partitions) replace_block1_long
           (File [] 0) None).
  reflexivity.
Defined.

Lemma length_apply_writes (f : file) ws :
  length (contents f) ≤ length (contents (apply_writes f ws)).
Proof.
  destruct (decide (length (contents f)
                    ≤ length (contents (apply_writes f ws)))) as [|Hlt];
    [done|exfalso].
  pose proof (lookup_apply_writes f ws
                (length (contents (apply_writes f ws)))) as H.
  rewrite lookup_ge_None_2 in H by done.
  unfold written in H. destruct (last_cover ws _); [done|].
  destruct (lookup_lt_is_Some_2 (contents f)
              (length (contents (apply_writes f ws)))) as [b Hb]; [lia|].
  by rewrite Hb in H.
Qed.

(** X6: the operations of a partition never shorten the output file,
    whether they succeed or one of them fails. *)
Theorem operations_never_truncate L d ops out_file old_file :
  length (contents out_file)
  ≤ length (contents (apply_operations L d ops out_file old_file).1).
Proof. rewrite apply_operations_writes. apply length_apply_writes. Qed.

Lemma length_read_at (buffer : bytes) (off n : nat) :
  length (read_at buffer off n) ≤ n.
Proof. rewrite read_at_slice. unfold slice. rewrite length_take. lia. Qed.

Lemma last_cover_scatter d buffer n exts i :
  ¬ in_extents d exts i → last_cover (scatter_writes d buffer n exts) i = None.
Proof.
  revert n. induction exts as [|ext exts IH]; intros n Hout; simpl; [done|].
  rewrite in_extents_cons in Hout. rewrite IH by tauto.
  rewrite decide_False; [done|]. unfold covers. simpl. intros Hin.
  apply Hout. left. unfold in_extent. rewrite in_bytes_add.
  pose proof (length_read_at buffer (in_bytes d n)
                (in_bytes d (um.num_blocks ext))). lia.
Qed.

(** X7: SOURCE_BSDIFF writes inside its destination extents only: a byte
    of the output file outside their byte ranges is what it was. *)
Theorem source_bsdiff_stays_in_extents L d fetched out_file old_file
    out_file' :
  um.type (operation fetched) = um.SOURCE_BSDIFF →
  data_for_op L d fetched out_file old_file = Ok out_file' →
  ∀ i, ¬ in_extents d (um.dst_extents (operation fetched)) i →
       i < length (contents out_file) →
       contents out_file' !! i = contents out_file !! i.
Proof.
  intros Hty. rewrite data_for_op_writes. unfold op_writes. rewrite Hty.
  destruct (diff d); simpl; [|done].
  destruct (first_extent _); simpl; [|done|done].
  destruct (gathered _ _ _); simpl; [|done|done].
  destruct (or_raise _ _); simpl; [|done|done].
  intros [= <-] i Hout Hlt.
  rewrite lookup_apply_writes. unfold written.
  rewrite last_cover_scatter by done.
  by destruct (lookup_lt_is_Some_2 _ _ Hlt) as [b ->].
Qed.

(** X7 on [short_bsdiff], over a file of five bytes: the fifth stays. *)
Lemma source_bsdiff_stays_in_extents_witness :
  [Byte.xaa; Byte.xbb; Byte.x03; Byte.x04; Byte.x05] !! 4
  = contents five_bytes !! 4.
Proof.
  apply (source_bsdiff_stays_in_extents (stand_in no_partitions)
           (small_dumper true None no_partitions) short_bsdiff five_bytes
           (Some old_image6)
           (File [Byte.xaa; Byte.xbb; Byte.x03; Byte.x04; Byte.x05] 4)).
  - reflexivity.
  - reflexivity.
  - intros (e & He & Hi). apply list_elem_of_singleton in He. subst e.
    unfold in_extent, in_bytes in Hi. simpl in Hi. lia.
  - simpl. lia.
Defined.

(** X8: an operation without destination extents writes nothing. ZERO
    succeeds and leaves the file as it is; any other operation fails: by
    [IndexError] at [dst_extents[0]], unless its payload does not
    decompress or the check of its type or of the mode exits first. *)
Theorem no_dst_extents L d fetched out_file old_file :
  um.dst_extents (operation fetched) = [] →
  let r := data_for_op L d fetched out_file old_file in
  (um.type (operation fetched) = um.ZERO → r = Ok out_file)
  ∧ (um.type (operation fetched) ≠ um.ZERO →
     r = Raise IndexError ∨ r = Raise LZMAError ∨ r = Raise BZ2Error
     ∨ ∃ c, r = SystemExit c ∧ exit_code c)
  ∧ (um.type (operation fetched) = um.REPLACE → r = Raise IndexError)
  ∧ (diff d = true →
     um.type (operation fetched) = um.SOURCE_COPY
     ∨ um.type (operation fetched) = um.SOURCE_BSDIFF →
     r = Raise IndexError).
Proof.
  intros Hdst r. subst r. unfold data_for_op, exit_code. rewrite Hdst.
  destruct (um.type (operation fetched));
    destruct (lzma_decompress L (data fetched));
    destruct (bz2_decompress L (data fetched));
    destruct (diff d); simpl;
    split_and!; try done;
    try (intros _ [?|?]; done); intros _; eauto 10.
Qed.

(** X8 on a REPLACE without destination extents. *)
Lemma no_dst_extents_witness :
  data_for_op (stand_in no_partitions) (small_dumper false None no_partitions)
    (op um.REPLACE [] [] [Byte.x01]) five_bytes None
  = Raise IndexError.
Proof.
  destruct (no_dst_extents (stand_in no_partitions)
              (small_dumper false None no_partitions)
              (op um.REPLACE [] [] [Byte.x01]) five_bytes None)
    as (_ & _ & Hreplace & _).
  - reflexivity.
  - apply Hreplace. reflexivity.
Defined.

(** ** Tasks *)

Lemma dump_part_task_result L d part fs :
  let out_path := image_path (out d) (part_name part) in
  let old_path := image_path (old d) (part_name part) in
  dump_part L d part fs
  = (<[out_path := (task_result L d part
                      (<[out_path := []]> fs !! old_path)).1]> fs,
     (task_result L d part (<[out_path := []]> fs !! old_path)).2).
Proof.
  intros out_path old_path. unfold dump_part, task_result, part_name in *.
  fold out_path old_path. destruct (diff d).
  - destruct (<[out_path := []]> fs !! old_path) as [image|]; simpl.
    + destruct (apply_operations _ _ _ _ _). simpl.
      by rewrite insert_insert_eq.
    + done.
  - destruct (apply_operations _ _ _ _ _). simpl.
    by rewrite insert_insert_eq.
Qed.

(** X9: what a task leaves in its output file, and how it ends, depend on
    the file system through the old image of its partition only, and on
    nothing of the file system outside differential mode; in particular
    not on what the output file held before. *)
Theorem task_depends_on_old_image_only L d part fs fs' :
  let out_path := image_path (out d) (part_name part) in
  let old_path := image_path (old d) (part_name part) in
  (diff d = true → old_path ≠ out_path ∧ fs !! old_path = fs' !! old_path) →
  (dump_part L d part fs).2 = (dump_part L d part fs').2
  ∧ (dump_part L d part fs).1 !! out_path
    = (dump_part L d part fs').1 !! out_path.
Proof.
  intros out_path old_path Hold. rewrite !dump_part_task_result.
  fold out_path old_path. cbn [fst snd]. rewrite !lookup_insert_eq.
  assert (task_result L d part (<[out_path := []]> fs !! old_path)
          = task_result L d part (<[out_path := []]> fs' !! old_path)) as ->;
    [|done].
  unfold task_result. destruct (diff d); [|done].
  destruct Hold as [Hne Heq]; [done|].
  by rewrite !lookup_insert_ne, Heq by done.
Qed.

(** X9 on [part_a], outside differential mode: with or without an older
    output. *)
Lemma task_depends_on_old_image_only_witness :
  (dump_part (stand_in no_partitions) (small_dumper false None no_partitions)
     part_a ∅).1 !! image_path "out" "a"
  = (dump_part (stand_in no_partitions) (small_dumper false None no_partitions)
       part_a {[ image_path "out" "a" := [Byte.xff; Byte.xff; Byte.xff] ]}).1
      !! image_path "out" "a".
Proof.
  apply (task_depends_on_old_image_only (stand_in no_partitions)
           (small_dumper false None no_partitions) part_a ∅
           {[ image_path "out" "a" := [Byte.xff; Byte.xff; Byte.xff] ]}).
  discriminate.
Defined.

(** X10: in differential mode, a task whose old image is missing raises
    [FileNotFoundError] before its first operation, and leaves an empty
    output file. *)
Theorem missing_old_image L d part fs :
  let out_path := image_path (out d) (part_name part) in
  let old_path := image_path (old d) (part_name part) in
  diff d = true → old_path ≠ out_path → fs !! old_path = None →
  dump_part L d part fs = (<[out_path := []]> fs, Raise FileNotFoundError).
Proof.
  intros out_path old_path Hdiff Hne Hnone. rewrite dump_part_task_result.
  fold out_path old_path. unfold task_result.
  by rewrite Hdiff, lookup_insert_ne, Hnone.
Qed.

(** X10 on [part_a], on an empty file system. *)
Lemma missing_old_image_witness :
  dump_part (stand_in no_partitions) (small_dumper true None no_partitions)
    part_a ∅
  = (<[image_path "out" "a" := []]> ∅, Raise FileNotFoundError).
Proof.
  apply (missing_old_image (stand_in no_partitions)
           (small_dumper true None no_partitions) part_a ∅).
  - reflexivity.
  - discriminate.
  - reflexivity.
Defined.

(** The tasks of two partitions of different names, neither of which has
    its old image where the other has its output, can run in either
    order. *)
Lemma dump_part_swap L d p q fs :
  part_name p ≠ part_name q →
  (diff d = true →
   ∀ x y, x ∈ [p; q] → y ∈ [p; q] →
          image_path (old d) (part_name x) ≠ image_path (out d) (part_name y)) →
  (dump_part L d q (dump_part L d p fs).1).1
  = (dump_part L d p (dump_part L d q fs).1).1
  ∧ (dump_part L d p fs).2 = (dump_part L d p (dump_part L d q fs).1).2
  ∧ (dump_part L d q (dump_part L d p fs).1).2 = (dump_part L d q fs).2.
Proof.
  intros Hname Hold.
  assert (image_path (out d) (part_name p) ≠ image_path (out d) (part_name q))
    as Hout by (by intros ?%image_path_inj).
  rewrite !dump_part_task_result. cbn [fst snd].
  set (out_p := image_path (out d) (part_name p)) in *.
  set (out_q := image_path (out d) (part_name q)) in *.
  set (old_p := image_path (old d) (part_name p)) in *.
  set (old_q := image_path (old d) (part_name q)) in *.
  assert (∀ c, task_result L d p (<[out_p := []]> (<[out_q := c]> fs) !! old_p)
               = task_result L d p (<[out_p := []]> fs !! old_p)) as Hp.
  { intros c. unfold task_result. destruct (diff d) eqn:Hdiff; [|done].
    assert (old_p ≠ out_p) by (apply Hold; [done|by left|by left]).
    assert (old_p ≠ out_q) by (apply Hold; [done|by left|right; by left]).
    by rewrite !lookup_insert_ne by done. }
  assert (∀ c, task_result L d q (<[out_q := []]> (<[out_p := c]> fs) !! old_q)
               = task_result L d q (<[out_q := []]> fs !! old_q)) as Hq.
  { intros c. unfold task_result. destruct (diff d) eqn:Hdiff; [|done].
    assert (old_q ≠ out_q) by (apply Hold; [done|right; by left|right; by left]).
    assert (old_q ≠ out_p) by (apply Hold; [done|right; by left|by left]).
    by rewrite !lookup_insert_ne by done. }
  rewrite Hp, Hq. split_and!; [|done|done].
  by apply insert_insert_ne.
Qed.

(** X11: when the selected partitions have different names, and no old
    image is where an output file goes, the order in which the tasks run
    does not matter: the file system that they leave and the outcome of
    each task are the same in any order. *)
Theorem tasks_in_any_order L d parts parts' fs :
  NoDup (map part_name parts) →
  (diff d = true →
   ∀ x y, x ∈ parts → y ∈ parts →
          image_path (old d) (part_name x) ≠ image_path (out d) (part_name y)) →
  parts' ≡ₚ parts →
  (run_tasks L d parts' fs).1 = (run_tasks L d parts fs).1
  ∧ (run_tasks L d parts' fs).2 ≡ₚ (run_tasks L d parts fs).2.
Proof.
  intros Hnames Hold Hperm. revert fs Hnames Hold.
  induction Hperm as [|x l l' Hperm IH|x y l|l l' l'' H1 IH1 H2 IH2];
    intros fs Hnames Hold.
  - done.
  - rewrite !run_tasks_cons. cbn [fst snd].
    destruct (IH (dump_part L d x fs).1) as [Hfs Hfut].
    + by apply NoDup_cons in Hnames as [_ ?].
    + intros Hdiff a b Ha Hb. apply Hold; [done|by right|by right].
    + rewrite Hfs. split; [done|]. by constructor.
  - rewrite !run_tasks_cons. cbn [fst snd].
    rewrite !run_tasks_cons. cbn [fst snd].
    destruct (dump_part_swap L d y x fs) as (Hfs & Hy & Hx).
    + simpl in Hnames. apply NoDup_cons in Hnames as [Hnot _].
      intros Heq. apply Hnot. rewrite <- Heq. by left.
    + assert (∀ a, a ∈ [y; x] → a ∈ x :: y :: l) as Hin.
      { intros a Ha. apply elem_of_cons in Ha as [->|Ha]; [right; by left|].
        apply list_elem_of_singleton in Ha as ->. by left. }
      intros Hdiff a b Ha Hb. apply Hold; [done| |]; by apply Hin.
    + rewrite Hfs, Hx, <- Hy. split; [done|]. apply perm_swap.
  - assert (NoDup (map part_name l')) as Hnames'
      by (by rewrite (fmap_Permutation part_name _ _ H2)).
    assert (diff d = true →
            ∀ a b, a ∈ l' → b ∈ l' →
                   image_path (old d) (part_name a)
                   ≠ image_path (out d) (part_name b)) as Hold'.
    { intros Hdiff a b Ha Hb. apply Hold; [done| |]; by rewrite <- H2. }
    destruct (IH1 fs Hnames' Hold') as [Hfs1 Hfut1].
    destruct (IH2 fs Hnames Hold) as [Hfs2 Hfut2].
    split; [congruence|]. by rewrite Hfut1.
Qed.

(** X11 on [part_a] and [part_b]. *)
Lemma tasks_in_any_order_witness :
  (run_tasks (stand_in no_partitions) (small_dumper false None no_partitions)
     [part_b; part_a] ∅).1
  = (run_tasks (stand_in no_partitions) (small_dumper false None no_partitions)
       [part_a; part_b] ∅).1.
Proof.
  apply (tasks_in_any_order (stand_in no_partitions)
           (small_dumper false None no_partitions) [part_a; part_b]
           [part_b; part_a] ∅).
  - apply (bool_decide_unpack _). reflexivity.
  - discriminate.
  - apply perm_swap.
Defined.

(** ** Replacements in sequence *)

Lemma data_for_op_replace L d fetched out_file old_file payload ext :
  replace_payload L (um.type (operation fetched)) (data fetched)
    = Some payload →
  head (um.dst_extents (operation fetched)) = Some ext →
  data_for_op L d fetched out_file old_file
  = Ok (write (seek out_file (in_bytes d (um.start_block ext))) payload).
Proof.
  intros Hpayload Hdst. unfold data_for_op, replace_payload, first_extent in *.
  rewrite Hdst.
  destruct (um.type (operation fetched)); try done; simpl in *.
  - by inversion Hpayload.
  - by rewrite Hpayload.
  - by rewrite Hpayload.
Qed.

Lemma write_at_end (f : file) (data : bytes) :
  contents (write (seek f (length (contents f))) data) = contents f ++ data.
Proof.
  destruct (decide (data = [])) as [->|Hne]; [by rewrite app_nil_r|].
  rewrite contents_write by done. cbn [seek contents position].
  rewrite take_ge, Nat.sub_diag, drop_ge by lia. simpl.
  by rewrite app_nil_r.
Qed.

Lemma replaces_from_append L d ops payloads out_file old_file :
  replaces_from L d (length (contents out_file)) ops payloads →
  ∃ out_file',
    apply_operations L d ops out_file old_file = (out_file', Ok ())
    ∧ contents out_file' = contents out_file ++ concat payloads.
Proof.
  revert payloads out_file.
  induction ops as [|o ops IH]; intros [|payload payloads] out_file; simpl;
    try done.
  - intros _. exists out_file. by rewrite app_nil_r.
  - intros (Hpayload & (ext & Hdst & Hoff) & Hrest).
    rewrite (data_for_op_replace L d o out_file old_file payload ext) by done.
    rewrite Hoff.
    destruct (IH payloads
                (write (seek out_file (length (contents out_file))) payload))
      as (out_file' & -> & Hc).
    + by rewrite write_at_end, length_app.
    + exists out_file'. split; [done|].
      by rewrite Hc, write_at_end, <- app_assoc.
Qed.

(** X12: outside differential mode, a partition whose operations are
    replacements (raw or compressed), the first written at offset 0 and
    each of the others where the one before it ends, gives the
    concatenation of their payloads as its image, and its task succeeds. *)
Theorem replacements_concatenate L d part payloads fs :
  diff d = false →
  replaces_from L d 0 (operations part) payloads →
  dump_part L d part fs
  = (<[image_path (out d) (part_name part) := concat payloads]> fs, Ok ()).
Proof.
  intros Hdiff Hops. unfold dump_part. rewrite Hdiff.
  destruct (replaces_from_append L d (operations part) payloads (File [] 0)
              None Hops) as (out_file' & -> & Hc).
  simpl in Hc. rewrite Hc. fold (part_name part).
  by rewrite insert_insert_eq.
Qed.

(** X12 on [part_ab]: one block, then two. *)
Lemma replacements_concatenate_witness :
  dump_part (stand_in no_partitions) (small_dumper false None no_partitions)
    part_ab ∅
  = (<[image_path "out" "ab" :=
         [Byte.x01; Byte.x02; Byte.x03; Byte.x04; Byte.x05; Byte.x06]]> ∅,
     Ok ()).
Proof.
  apply (replacements_concatenate (stand_in no_partitions)
           (small_dumper false None no_partitions) part_ab
           [[Byte.x01; Byte.x02]; [Byte.x03; Byte.x04; Byte.x05; Byte.x06]] ∅).
  - reflexivity.
  - simpl. split_and!; try reflexivity;
      eexists; split; reflexivity.
Defined.


(** ** SOURCE_COPY to contiguous extents *)

Lemma slice_slice_app (a b c : nat) (x : bytes) :
  slice a (a + b) x ++ slice (a + b) (a + b + c) x = slice a (a + b + c) x.
Proof.
  unfold slice.
  replace (a + b - a) with b by lia.
  replace (a + b + c - (a + b)) with c by lia.
  replace (a + b + c - a) with (b + c) by lia.
  by rewrite <- drop_drop, take_take_drop.
Qed.

Lemma seek_position (f : file) : seek f (position f) = f.
Proof. by destruct f. Qed.

(** Scattering over extents that follow one another from block [b] puts
    the bytes of the buffer in one piece at block [b]. *)
Lemma scatter_from_contiguous d buffer n b exts f :
  verify_contiguous_loop b exts = true →
  contents (scatter_from d buffer n exts f)
  = contents (write (seek f (in_bytes d b))
                (slice (in_bytes d n) (in_bytes d (n + total_blocks exts))
                   buffer)).
Proof.
  revert n b f. induction exts as [|ext exts IH]; intros n b f Hc; simpl.
  - rewrite N.add_0_r. unfold slice. by rewrite Nat.sub_diag.
  - simpl in Hc. destruct (N.eqb_spec (um.start_block ext) b) as [->|];
      [simpl in Hc|done].
    rewrite (IH _ _ _ Hc). rewrite read_at_slice.
    rewrite !in_bytes_add, Nat.add_assoc.
    set (A := in_bytes d n). set (B := in_bytes d (um.num_blocks ext)).
    set (C := in_bytes d (total_blocks exts)).
    rewrite <- (slice_slice_app A B C).
    set (s1 := slice A (A + B) buffer).
    destruct (decide (length s1 = B)) as [Hfull|Hshort].
    + set (f1 := write _ s1).
      assert (position f1
              = in_bytes d b + B) as <-
        by (unfold f1; rewrite position_write; simpl; lia).
      rewrite seek_position. unfold f1. by rewrite write_write.
    + assert (slice (A + B) (A + B + C) buffer = []) as ->.
      { unfold slice. rewrite drop_ge; [by rewrite take_nil|].
        unfold s1, slice in Hshort.
        rewrite length_take, length_drop in Hshort. lia. }
      by rewrite app_nil_r.
Qed.

Lemma in_bytes_le (d : Dumper) (a b : N) :
  (a ≤ b)%N → in_bytes d a ≤ in_bytes d b.
Proof. unfold in_bytes. nia. Qed.

Lemma length_gather d image exts :
  length (gather d image exts) ≤ in_bytes d (total_blocks exts).
Proof.
  unfold gather. induction exts as [|ext exts IH]; simpl.
  - unfold in_bytes. lia.
  - rewrite length_app, in_bytes_add.
    pose proof (length_read_at image (in_bytes d (um.start_block ext))
                  (in_bytes d (um.num_blocks ext))). lia.
Qed.

(** X13: in differential mode, a SOURCE_COPY whose destination extents
    follow one another from the first extent's block, and hold at least
    as many blocks as the source extents, leaves the output file with the
    contents that scattering the gathered bytes over the destination
    extents, each at its own offset, would give. *)
Theorem source_copy_contiguous L d fetched out_file image ext rest :
  um.type (operation fetched) = um.SOURCE_COPY →
  diff d = true →
  um.dst_extents (operation fetched) = ext :: rest →
  verify_contiguous_loop (um.start_block ext) (ext :: rest) = true →
  (total_blocks (um.src_extents (operation fetched))
   ≤ total_blocks (ext :: rest))%N →
  ∃ out_file',
    data_for_op L d fetched out_file (Some image) = Ok out_file'
    ∧ contents out_file'
      = contents (scatter_from d
                    (gather d image (um.src_extents (operation fetched)))
                    0 (ext :: rest) out_file).
Proof.
  intros Hty Hdiff Hdst Hc Hle. eexists. split.
  - by apply source_copy_at_first_extent with (rest := rest).
  - rewrite (scatter_from_contiguous _ _ _ _ _ _ Hc).
    do 2 f_equal. unfold slice.
    rewrite N.add_0_l. replace (in_bytes d 0) with 0 by (unfold in_bytes; lia).
    rewrite drop_0, Nat.sub_0_r. symmetry. apply take_ge.
    pose proof (length_gather d image (um.src_extents (operation fetched))).
    apply (in_bytes_le d) in Hle. lia.
Qed.

(** X13 on [contiguous_copy]: blocks 1-2 of the old image land in the
    destination blocks 3 and 4. *)
Lemma source_copy_contiguous_witness :
  ∃ out_file',
    data_for_op (stand_in no_partitions) (small_dumper true None no_partitions)
      contiguous_copy (File [] 0) (Some old_image6) = Ok out_file'
    ∧ contents out_file'
      = contents (scatter_from (small_dumper true None no_partitions)
                    (gather (small_dumper true None no_partitions) old_image6
                       (um.src_extents (operation contiguous_copy)))
                    0 [extent 3 1; extent 4 1] (File [] 0)).
Proof.
  apply (source_copy_contiguous (stand_in no_partitions)
           (small_dumper true None no_partitions) contiguous_copy (File [] 0)
           old_image6 (extent 3 1) [extent 4 1]); reflexivity.
Defined.

(** ** The selection of the partitions *)

Lemma find_partition_Some d image p :
  find_partition d image = Some p →
  um.partition_name p = image ∧ p ∈ um.partitions (dam d).
Proof.
  unfold find_partition. generalize (um.partitions (dam d)).
  intros l. induction l as [|q l IH]; simpl; [done|].
  case_bool_decide as Hq.
  - intros [= ->]. split; [done|by left].
  - intros H. destruct (IH H). split; [done|by right].
Qed.

Lemma find_partition_None d image :
  find_partition d image = None ↔ image ∉ manifest_names d.
Proof.
  unfold find_partition, manifest_names. generalize (um.partitions (dam d)).
  intros l. induction l as [|q l IH]; simpl.
  - split; [intros _; apply not_elem_of_nil|done].
  - case_bool_decide as Hq.
    + split; [done|]. intros H. exfalso. apply H. rewrite <- Hq. by left.
    + rewrite IH, not_elem_of_cons.
      split; [intros ?; split; [congruence|done]|by intros [_ ?]].
Qed.

Lemma select_images_prints d names acc w :
  foldl (select_image d) (acc, w) names
  = (acc ++ omap (find_partition d) names,
     World (payloadfile w) (files w)
       (trace w ++ map (λ image, Print (PartitionNotFound image))
                       (filter (λ image, image ∉ manifest_names d) names))).
Proof.
  revert acc w. induction names as [|image names IH]; intros acc w; simpl.
  - rewrite !app_nil_r. by destruct w.
  - fold (find_partition d image).
    destruct (find_partition d image) as [p|] eqn:Hfind; simpl.
    + rewrite IH, <- app_assoc. simpl.
      rewrite filter_cons_False; [done|].
      intros Hmiss. apply find_partition_None in Hmiss. congruence.
    + rewrite IH. unfold emit. cbn [payloadfile files trace].
      rewrite filter_cons_True by (by apply find_partition_None).
      simpl. by rewrite <- app_assoc.
Qed.

Lemma selected_partitions_omap d names :
  images d = Some names →
  selected_partitions d = omap (find_partition d) names.
Proof.
  intros Himages. unfold selected_partitions. rewrite Himages. clear Himages.
  induction names as [|image names IH]; simpl; [done|].
  fold (find_partition d image).
  destruct (find_partition d image); simpl; [f_equal|]; exact IH.
Qed.

Lemma select_partitions_prints d w :
  select_partitions d w
  = (selected_partitions d,
     World (payloadfile w) (files w)
       (trace w ++ map (λ image, Print (PartitionNotFound image))
                       (missing_images d))).
Proof.
  unfold select_partitions, missing_images.
  destruct (images d) as [names|] eqn:Himages.
  - by rewrite select_images_prints, (selected_partitions_omap d names).
  - unfold selected_partitions. rewrite Himages. simpl. rewrite app_nil_r.
    by destruct w.
Qed.

(** X14: with [--partitions], the run works on the requested names that
    the manifest has, in the order of the request and as often as they are
    requested; for each of them on the first partition of the manifest
    with that name. *)
Theorem selection_follows_request d names :
  images d = Some names →
  map um.partition_name (selected_partitions d)
  = filter (λ image, image ∈ manifest_names d) names
  ∧ ∀ p, p ∈ selected_partitions d →
      find_partition d (um.partition_name p) = Some p.
Proof.
  intros Himages. rewrite (selected_partitions_omap d names Himages).
  split.
  - clear Himages. induction names as [|image names IH]; [done|].
    cbn [omap list_omap].
    destruct (find_partition d image) as [p|] eqn:Hfind.
    + apply find_partition_Some in Hfind as Hp. destruct Hp as [Hname Hin].
      rewrite filter_cons_True.
      * cbn [map]. f_equal; [done|exact IH].
      * rewrite <- Hname. unfold manifest_names.
        by apply list_elem_of_fmap_2.
    + rewrite filter_cons_False; [exact IH|].
      apply find_partition_None in Hfind. by intros ?.
  - intros p (image & Hin & Hfind)%list_elem_of_omap.
    apply find_partition_Some in Hfind as Hp. destruct Hp as [-> _]. done.
Qed.

(** X14 on the request [b, x, a, b] of the manifest [a_then_b]. *)
Lemma selection_follows_request_witness :
  map um.partition_name
    (selected_partitions
       (small_dumper false (Some ["b"; "x"; "a"; "b"]) a_then_b))
  = filter (λ image,
             image ∈ manifest_names
                       (small_dumper false (Some ["b"; "x"; "a"; "b"])
                          a_then_b))
      ["b"; "x"; "a"; "b"]
  ∧ ∀ p, p ∈ selected_partitions
               (small_dumper false (Some ["b"; "x"; "a"; "b"]) a_then_b) →
      find_partition (small_dumper false (Some ["b"; "x"; "a"; "b"]) a_then_b)
        (um.partition_name p) = Some p.
Proof.
  apply (selection_follows_request
           (small_dumper false (Some ["b"; "x"; "a"; "b"]) a_then_b)
           ["b"; "x"; "a"; "b"]).
  reflexivity.
Defined.

(** ** Runs that start no task *)

(** X15: a run that has no partition to work on prints the requested
    names that the manifest does not have, then that it operates on no
    partition, and returns: it neither reads nor closes the payload file,
    and it leaves the file system as it is. *)
Theorem run_without_partitions L d w :
  selected_partitions d = [] →
  run L d w
  = (World (payloadfile w) (files w)
       (trace w
          ++ map (λ image, Print (PartitionNotFound image)) (missing_images d)
          ++ [Print NotOperating]),
     Ok ()).
Proof.
  intros Hsel. unfold run. rewrite select_partitions_prints, Hsel.
  unfold emit. cbn [payloadfile files trace]. by rewrite <- app_assoc.
Qed.

(** X15 on the request [x, y] of the manifest [a_then_b]. *)
Lemma run_without_partitions_witness :
  small_run false (Some ["x"; "y"]) a_then_b []
  = (World (File payload_head 25) ∅
       [Print (PartitionNotFound "x"); Print (PartitionNotFound "y");
        Print NotOperating],
     Ok ()).
Proof.
  unfold small_run.
  rewrite (run_without_partitions (stand_in a_then_b)
             (small_dumper false (Some ["x"; "y"]) a_then_b) (fresh_world []));
    reflexivity.
Defined.

(** X16: with a worker count that is not positive, a run that has a
    partition to work on reads the payload bytes of every operation and
    closes the payload file, and then fails with a [ValueError]: no task
    is submitted and the file system is left as it is. *)
Theorem run_without_workers L d w :
  (workers d ≤ 0)%Z →
  selected_partitions d ≠ [] →
  ∃ pos,
    run L d w
    = (World (File (contents (payloadfile w)) pos) (files w)
         (trace w
            ++ map (λ image, Print (PartitionNotFound image))
                   (missing_images d)
            ++ fetch_events d
                 (concat (map um.operations (selected_partitions d)))
            ++ [PayloadClose]),
       Raise ValueError).
Proof.
  intros Hworkers Hsel. unfold run. rewrite select_partitions_prints.
  destruct (selected_partitions d) as [|p sel] eqn:Hs; [done|].
  rewrite <- Hs.
  match goal with |- context [prefetch d _ ?w1] =>
    destruct (prefetch_spec d (selected_partitions d) w1) as (pos & ->) end.
  exists pos. unfold multiprocess_partitions.
  destruct (Z.leb_spec (workers d) 0) as [_|?]; [|lia].
  unfold emit. cbn [payloadfile files trace contents].
  by rewrite <- !app_assoc.
Qed.

(** X16 on the manifest [a_then_b]. *)
Lemma run_without_workers_witness :
  ∃ pos,
    run (stand_in a_then_b) (no_worker None a_then_b)
      (fresh_world [Byte.x01; Byte.x02])
    = (World (File (payload_head ++ [Byte.x01; Byte.x02]) pos) ∅
         [PayloadSeek 25; PayloadRead 1; PayloadSeek 26; PayloadRead 1;
          PayloadClose],
       Raise ValueError).
Proof.
  apply (run_without_workers (stand_in a_then_b) (no_worker None a_then_b)
           (fresh_world [Byte.x01; Byte.x02])).
  - reflexivity.
  - discriminate.
Defined.

(** ** How a run ends *)

Lemma collect_result done w :
  (collect done w).2 = Ok ()
  ∨ ∃ name c, (collect done w).2 = SystemExit c ∧ (name, SystemExit c) ∈ done.
Proof.
  revert w. induction done as [|[n r] done IH]; intros w; simpl; [by left|].
  destruct r as [[]|exc|c].
  - destruct (IH w) as [?|(n' & c' & ? & ?)]; [by left|right].
    exists n', c'. split; [done|by right].
  - destruct (IH (emit (Print (ProcessingException n exc)) w))
      as [?|(n' & c' & ? & ?)]; [by left|right].
    exists n', c'. split; [done|by right].
  - right. exists n, c. split; [done|by left].
Qed.

(** X17: a run whose payload file holds the payload bytes of every
    operation of the selected partitions, so that the payload file
    refuses none of the seeks and reads of the run, returns, or fails with
    the [ValueError] of a pool without workers, or ends by a [sys.exit] of
    one of its tasks, with the code -1, -2 or -3: no exception of a task
    leaves it, and the exit status of the process is 0, 1, 253, 254 or
    255. *)
Theorem run_ends L d w :
  data_in_payload d w →
  match (run L d w).2 with
  | Ok _ => True
  | Raise e => e = ValueError ∧ (workers d ≤ 0)%Z
  | SystemExit c => exit_code c ∧ (0 < workers d)%Z
  end
  ∧ exit_status (run L d w).2 ∈ [0; 1; 253; 254; 255]%Z.
Proof.
  intros _.
  assert (match (run L d w).2 with
          | Ok _ => True
          | Raise e => e = ValueError ∧ (workers d ≤ 0)%Z
          | SystemExit c => exit_code c ∧ (0 < workers d)%Z
          end) as H.
  { destruct (decide (selected_partitions d = [])) as [Hnil|Hsel].
    - unfold run. by rewrite select_partitions_prints, Hnil.
    - destruct (Z.le_gt_cases (workers d) 0) as [Hw|Hw].
      + unfold run. rewrite select_partitions_prints.
        destruct (selected_partitions d) as [|p sel] eqn:Hs; [done|].
        destruct (prefetch d (p :: sel) _) as [parts w1].
        unfold multiprocess_partitions.
        destruct (Z.leb_spec (workers d) 0) as [_|?]; [|lia]. done.
      + destruct (run_unfold L d w Hw Hsel) as (prints & pos & _ & ->).
        match goal with |- context [collect ?done ?w1] =>
          destruct (collect_result done w1) as [->|(n & c & -> & Hin)] end;
          [done|].
        rewrite as_completed_perm in Hin.
        apply run_tasks_exit_codes in Hin. done. }
  split; [done|].
  destruct ((run L d w).2) as [[]|e|c]; simpl.
  - set_solver.
  - set_solver.
  - destruct H as [[-> | [-> | ->]] _]; compute; set_solver.
Qed.

(** X17 on the manifest [a_then_b], with the two bytes of its operations
    in the data region. *)
Lemma run_ends_witness :
  match (small_run false None a_then_b [Byte.x07; Byte.x08]).2 with
  | Ok _ => True
  | Raise e =>
      e = ValueError
      ∧ (workers (small_dumper false None a_then_b) ≤ 0)%Z
  | SystemExit c =>
      exit_code c ∧ (0 < workers (small_dumper false None a_then_b))%Z
  end
  ∧ exit_status (small_run false None a_then_b [Byte.x07; Byte.x08]).2
    ∈ [0; 1; 253; 254; 255]%Z.
Proof.
  apply (run_ends (stand_in a_then_b) (small_dumper false None a_then_b)
           (fresh_world [Byte.x07; Byte.x08])).
  unfold data_in_payload. simpl.
  repeat (constructor; [simpl; lia|]). constructor.
Defined.

(** ** The bytes handed to the tasks *)

(** X18: for every operation of every selected partition, the task
    receives the bytes of the payload file from the operation's offset in
    the data region on, [data_length] of them or as many as the payload
    file holds from there: a payload that is cut short is not an error of
    the run, and no read depends on where the reads before it left the
    file. *)
Theorem prefetch_reads_data_region d selected w part o :
  part ∈ (prefetch d selected w).1 →
  o ∈ operations part →
  let payload := contents (payloadfile w) in
  let off := data_offset d + N.to_nat (um.data_offset (operation o)) in
  let len := N.to_nat (um.data_length (operation o)) in
  partition part ∈ selected
  ∧ operation o ∈ um.operations (partition part)
  ∧ data o = slice off (off + len) payload
  ∧ length (data o) = len `min` (length payload - off).
Proof.
  intros Hpart Ho payload off len.
  destruct (prefetch_spec d selected w) as (pos & Heq).
  rewrite Heq in Hpart. cbn [fst] in Hpart.
  apply list_elem_of_fmap in Hpart as (p & -> & Hp).
  cbn [operations fetch_partition] in Ho.
  apply list_elem_of_fmap in Ho as (io & -> & Hio).
  cbn [partition fetch_partition operation data fetch_data] in *.
  subst off len. cbn [operation data fetch_data].
  split_and!; [done|done|apply read_at_slice|].
  rewrite read_at_slice. unfold slice.
  rewrite length_take, length_drop. fold payload. lia.
Qed.

(** X18 on the partition [a] of [a_then_b], with a data region of one
    byte. *)
Lemma prefetch_reads_data_region_witness :
  partition
    {| partition := {| um.partition_name := "a";
                       um.operations := [fetch_one 0] |};
       operations := [ {| operation := fetch_one 0;
                          data := [Byte.x07] |} ] |}
    ∈ um.partitions a_then_b
  ∧ fetch_one 0 ∈ [fetch_one 0]
  ∧ [Byte.x07] = slice 25 26 (payload_head ++ [Byte.x07])
  ∧ 1 = 1 `min` (length (payload_head ++ [Byte.x07]) - 25).
Proof.
  apply (prefetch_reads_data_region (small_dumper false None a_then_b)
           (um.partitions a_then_b) (fresh_world [Byte.x07])
           {| partition := {| um.partition_name := "a";
                              um.operations := [fetch_one 0] |};
              operations := [ {| operation := fetch_one 0;
                                 data := [Byte.x07] |} ] |}
           {| operation := fetch_one 0; data := [Byte.x07] |}).
  - left.
  - left.
Defined.

(** ** The construction of the Dumper *)

(** X19: [Dumper.__init__] reads the payload as a zip archive exactly
    when the header of the payload file fails one of the three checks: a
    payload file whose header passes them is decoded as it is, also when
    its manifest does not decode, and otherwise an error of the zip
    library ends the construction. When the construction succeeds, the
    payload file that the dumper keeps (the file given, or the archive's
    [payload.bin]) has a header that passes the checks, and the base
    offset of the data region is where that file's cursor stands. *)
Theorem init_zip_fallback L input :
  (header_ok input → init L (File input 0) = parse_metadata L (File input 0))
  ∧ (¬ header_ok input →
       init L (File input 0)
       = (member ←r zip_open_payload L input; parse_metadata L (File member 0)))
  ∧ (∀ md f, init L (File input 0) = Ok (md, f) →
       header_ok (contents f)
       ∧ md_data_offset md = position f
       ∧ (contents f = input ∨ zip_open_payload L input = Ok (contents f))).
Proof.
  assert (∀ x md f, parse_metadata L (File x 0) = Ok (md, f) →
            header_ok x ∧ contents f = x ∧ md_data_offset md = position f)
    as Hparse.
  { intros x md f. rewrite parse_metadata_eq.
    destruct (decide (header_ok x)) as [Hok|]; [|done].
    destruct (read_refused L x); [done|].
    destruct (ParseFromString L (manifest_bytes x)); [|done].
    by intros [= <- <-]. }
  assert (header_ok input →
          init L (File input 0) = parse_metadata L (File input 0)) as Hraw.
  { intros Hok. unfold init. rewrite parse_metadata_eq.
    rewrite decide_True by done.
    destruct (read_refused L input) as [e|]; [by destruct e|].
    by destruct (ParseFromString L (manifest_bytes input)). }
  assert (¬ header_ok input →
          init L (File input 0)
          = (member ←r zip_open_payload L input;
             parse_metadata L (File member 0))) as Hzip.
  { intros Hno. unfold init. rewrite (parse_metadata_eq L input).
    by rewrite decide_False by done. }
  split_and!; [done|done|].
  intros md f. destruct (decide (header_ok input)) as [Hok|Hno].
  - rewrite (Hraw Hok). intros (? & ? & ?)%Hparse.
    split_and!; [congruence|done|by left].
  - rewrite (Hzip Hno). cbn [contents].
    destruct (zip_open_payload L input) as [member| |]; simpl; [|done|done].
    intros (? & ? & ?)%Hparse.
    split_and!; [congruence|done|right; congruence].
Qed.

(** ** The progress bar of a download *)

(** X20: after every report of a download, whatever was reported before
    it and whatever the state was, the progress bar is closed and
    forgotten exactly when the report is of a complete download
    ([prog = total]), and otherwise there is a bar whose count is the
    reported [prog]. *)
Theorem download_progress_follows_last_report download_progress reports
    (prog total : Z) :
  let after := download download_progress (reports ++ [(prog, total)]) in
  (after = None ↔ prog = total)
  ∧ ∀ c, after = Some c → count c = prog.
Proof.
  unfold download. rewrite foldl_app. cbn [foldl fst snd].
  generalize (foldl (λ st r, update_download_progress st r.1 r.2)
                download_progress reports).
  intros st. unfold update_download_progress, update.
  destruct (Z.eqb_spec prog total) as [->|Hne]; cbn [negb].
  - split; [by destruct st|]. by destruct st.
  - split.
    + destruct st; split; done.
    + destruct st as [c0|]; intros c' [= <-]; cbn; lia.
Qed.

(** ** The exits of an operation *)

(** X21: an operation ends by a [sys.exit] in three cases only: a
    SOURCE_COPY outside differential mode (-2), a SOURCE_BSDIFF outside
    differential mode (-3), and a type that is none of the six (-1); in
    each of them whatever the payload, the extents and the files are. *)
Theorem data_for_op_exits L d fetched out_file old_file c :
  data_for_op L d fetched out_file old_file = SystemExit c ↔
  match um.type (operation fetched) with
  | um.SOURCE_COPY => diff d = false ∧ c = (-2)%Z
  | um.SOURCE_BSDIFF => diff d = false ∧ c = (-3)%Z
  | um.OtherType _ => c = (-1)%Z
  | _ => False
  end.
Proof.
  unfold data_for_op, first_extent.
  destruct (um.type (operation fetched)); simpl.
  - destruct (head _); simpl; done.
  - destruct (bz2_decompress _ _); simpl; [|done].
    destruct (head _); simpl; done.
  - destruct (lzma_decompress _ _); simpl; [|done].
    destruct (head _); simpl; done.
  - destruct (diff d); simpl.
    + split; [|by intros [? _]].
      destruct (head _); simpl; [|done].
      intros H. by apply copy_src_extents_no_exit in H.
    + split; [by intros [= <-]|by intros [_ ->]].
  - destruct (diff d); simpl.
    + split; [|by intros [? _]].
      destruct (head _); simpl; [|done].
      destruct (copy_src_extents _ _ _ _) as [tmp| |] eqn:Hcopy; simpl.
      * destruct (bsdiff4_patch _ _ _); simpl; done.
      * done.
      * by apply copy_src_extents_no_exit in Hcopy.
    + split; [by intros [= <-]|by intros [_ ->]].
  - done.
  - split; [by intros [= <-]|by intros ->].
Qed.

(** ** A run of replacements, from the payload to the images *)

Lemma NoDup_fmap_later {A B} (f : A → B) (l : list A) i x :
  NoDup (map f l) → l !! i = Some x → f x ∉ map f (drop (S i) l).
Proof.
  intros Hnd Hi. rewrite <- (take_drop_middle l i x Hi) in Hnd.
  rewrite map_app in Hnd. simpl in Hnd.
  apply NoDup_app in Hnd as (_ & _ & Hnd).
  by apply NoDup_cons in Hnd as [? _].
Qed.

(** X22: in a run outside differential mode, with a positive worker
    count, over partitions of distinct names, every selected partition
    whose operations are replacements (raw or compressed) written one
    after the other from offset 0 has, when the run is over, an image
    that is the concatenation of their payloads, whatever the tasks of
    the other partitions did and however the run ends. *)
Theorem run_writes_replacements L d w part payloads :
  (0 < workers d)%Z →
  diff d = false →
  NoDup (map um.partition_name (selected_partitions d)) →
  part ∈ fetched_partitions d w →
  replaces_from L d 0 (operations part) payloads →
  files (run L d w).1 !! image_path (out d) (part_name part)
  = Some (concat payloads).
Proof.
  intros Hworkers Hdiff Hnd Hpart Hops.
  assert (selected_partitions d ≠ []) as Hsel.
  { intros Hnil. unfold fetched_partitions in Hpart. rewrite Hnil in Hpart.
    by apply elem_of_nil in Hpart. }
  rewrite run_files by done.
  apply list_elem_of_lookup in Hpart as [i Hi].
  destruct (run_tasks_lookup L d (fetched_partitions d w) (files w) i part Hi)
    as (_ & _ & ->).
  - unfold dump_part. rewrite Hdiff.
    destruct (replaces_from_append L d (operations part) payloads (File [] 0)
                None Hops) as (out_file' & -> & Hc).
    simpl in Hc. cbn [fst snd]. rewrite Hc. apply lookup_insert_eq.
  - apply NoDup_fmap_later; [|done].
    unfold fetched_partitions. rewrite map_map. exact Hnd.
Qed.

(** X22 on the manifest [a_then_b], whose partitions replace block 0 by
    one byte of the data region each. *)
Lemma run_writes_replacements_witness :
  files (small_run false None a_then_b [Byte.x07; Byte.x08]).1
    !! image_path "out" "b"
  = Some [Byte.x08].
Proof.
  apply (run_writes_replacements (stand_in a_then_b)
           (small_dumper false None a_then_b)
           (fresh_world [Byte.x07; Byte.x08])
           (fetch_partition (small_dumper false None a_then_b)
              (payload_head ++ [Byte.x07; Byte.x08])
              {| um.partition_name := "b"; um.operations := [fetch_one 1] |})
           [[Byte.x08]]).
  - reflexivity.
  - reflexivity.
  - apply (bool_decide_unpack _). reflexivity.
  - right. left.
  - simpl. split_and!; [reflexivity| |done].
    eexists. split; reflexivity.
Defined.

(** ** The first failure of a task *)

(** X23: the loop over the operations of a partition ends at the first
    operation that fails, by an exception or by a [sys.exit]: the task
    ends as that operation does, the output file holds what the
    operations before it wrote, and the operations after it are not
    looked at. *)
Theorem task_stops_at_first_failure L d pre o post out_file old_file
    out_file' :
  apply_operations L d pre out_file old_file = (out_file', Ok ()) →
  (∀ f, data_for_op L d o out_file' old_file ≠ Ok f) →
  ∃ r, (∀ u, r ≠ Ok u)
       ∧ apply_operations L d (pre ++ o :: post) out_file old_file
         = (out_file', r)
       ∧ match r with
         | Raise e => data_for_op L d o out_file' old_file = Raise e
         | SystemExit c => data_for_op L d o out_file' old_file = SystemExit c
         | Ok _ => False
         end.
Proof.
  intros Hpre Hfail. rewrite apply_operations_app, Hpre. simpl.
  destruct (data_for_op L d o out_file' old_file) as [f|e|c] eqn:Ho.
  - by destruct (Hfail f).
  - exists (Raise e). done.
  - exists (SystemExit c). done.
Qed.

(** X23 on a REPLACE of block 0, then a REPLACE_XZ whose payload does not
    decompress, then a ZERO. *)
Lemma task_stops_at_first_failure_witness :
  ∃ r, (∀ u, r ≠ Ok u)
       ∧ apply_operations (stand_in no_partitions)
           (small_dumper false None no_partitions)
           ([op um.REPLACE [] [extent 0 1] [Byte.x01; Byte.x02]]
              ++ op um.REPLACE_XZ [] [extent 1 1] [Byte.x03]
              :: [op um.ZERO [] [extent 2 1] []])
           (File [] 0) None
         = (File [Byte.x01; Byte.x02] 2, r)
       ∧ match r with
         | Raise e =>
             data_for_op (stand_in no_partitions)
               (small_dumper false None no_partitions)
               (op um.REPLACE_XZ [] [extent 1 1] [Byte.x03])
               (File [Byte.x01; Byte.x02] 2) None = Raise e
         | SystemExit c =>
             data_for_op (stand_in no_partitions)
               (small_dumper false None no_partitions)
               (op um.REPLACE_XZ [] [extent 1 1] [Byte.x03])
               (File [Byte.x01; Byte.x02] 2) None = SystemExit c
         | Ok _ => False
         end.
Proof.
  apply (task_stops_at_first_failure (stand_in no_partitions)
           (small_dumper false None no_partitions)
           [op um.REPLACE [] [extent 0 1] [Byte.x01; Byte.x02]]
           (op um.REPLACE_XZ [] [extent 1 1] [Byte.x03])
           [op um.ZERO [] [extent 2 1] []]
           (File [] 0) None (File [Byte.x01; Byte.x02] 2)).
  - reflexivity.
  - intros f. discriminate.
Defined.
